(** * wheel2deb: the Debian source package descriptor ([_wheel2deb/debian.py])

    A shallow embedding of [SourcePackage] and of the text patterns it relies
    on, followed by the properties of the dependency and metadata resolution
    that the design document states, and by further properties of the
    methods.  Embedded are the module constants and the methods of
    [SourcePackage]; the template engine, the directory listing and the
    functions of other modules are parameters.

    Text.  A Python [str] is modelled by a Rocq [string] holding one
    character per code point, for code points below 256 (Latin-1).  On that
    range [\s], [\d], [.] and the [IGNORECASE] flag of the [re] module are
    exactly the classes defined below.

    Sets.  A Python [set] of [str] is a [gset string]; wherever the program
    iterates over a set, the order of the iteration is a parameter
    ([set_iter]), because the hash of a [str] changes from one interpreter
    process to the next.

    Paths.  A [pathlib] path is held as its [str]; [a / b] is [path_join],
    which drops empty components and dots and lets an absolute [b] replace
    [a], as [pathlib] does on POSIX.

    Effects.  Files, the processes started through [tools.shell] and the
    log are the state of a small state and exception monad, [M]. *)

From Stdlib Require Import Ascii String.
From Stdlib Require DecimalString.
From stdpp Require Import base option list sorting gmap strings.

(** ** Characters *)

Definition ord (a : ascii) : nat := nat_of_ascii a.

Definition in_range (lo hi : nat) (a : ascii) : bool :=
  (lo <=? ord a)%nat && (ord a <=? hi)%nat.

(** [\n] *)
Definition LF : ascii := ascii_of_nat 10.

(** U+00A9, the copyright sign of [COPYRIGHT_RE]. *)
Definition COPYRIGHT_SIGN : ascii := ascii_of_nat 169.

Definition is_char (c a : ascii) : bool := Ascii.eqb c a.
Arguments is_char (c a)%_char.

(** [\s] of a [str] pattern: [str.isspace] on code points below 256. *)
Definition is_space (a : ascii) : bool :=
  in_range 9 13 a || in_range 28 32 a || (ord a =? 133)%nat || (ord a =? 160)%nat.

(** [\d] of a [str] pattern: the only decimal digits below 256 are 0-9. *)
Definition is_digit (a : ascii) : bool := in_range 48 57 a.

(** [.] without [DOTALL]: anything but a line feed. *)
Definition is_dot (a : ascii) : bool := negb (is_char LF a).

Definition to_lower (a : ascii) : ascii :=
  if in_range 65 90 a then ascii_of_nat (ord a + 32) else a.

(** A literal character under [IGNORECASE]. *)
Definition is_char_i (c a : ascii) : bool := Ascii.eqb (to_lower c) (to_lower a).
Arguments is_char_i (c a)%_char.

(** [[a-z]] under [IGNORECASE]. *)
Definition is_az_i (a : ascii) : bool := in_range 97 122 (to_lower a).

(** ** A backtracking matcher for the patterns of the module

    The matcher returns every way a pattern matches at the start of a
    text, in the order in which a backtracking engine tries them: the head
    of the list is the match [re] reports.  The four patterns of the module
    have one capturing group each, no anchor and no look-behind, so a match
    depends on the text that follows its starting point only. *)

Inductive regex : Type :=
  | Eps : regex
  | Chr : (ascii → bool) → regex
  | Seq : regex → regex → regex
  | Alt : regex → regex → regex
  | Star : regex → regex
  | Group : regex → regex
  | Ahead : regex → regex
  | NotAhead : regex → regex.

(** [r+], [r?] and [r{2,4}], greedy like [Star]. *)
Definition Plus (r : regex) : regex := Seq r (Star r).
Definition Opt (r : regex) : regex := Alt r Eps.
Definition Rep_2_4 (r : regex) : regex := Seq r (Seq r (Opt (Seq r (Opt r)))).

Fixpoint cat (rs : list regex) : regex :=
  match rs with
  | [] => Eps
  | [r] => r
  | r :: rs => Seq r (cat rs)
  end.

Fixpoint alt (rs : list regex) : regex :=
  match rs with
  | [] => NotAhead Eps
  | [r] => r
  | r :: rs => Alt r (alt rs)
  end.

(** A literal text, with and without [IGNORECASE]. *)
Fixpoint lit (s : string) : regex :=
  match s with
  | EmptyString => Eps
  | String c EmptyString => Chr (is_char c)
  | String c s => Seq (Chr (is_char c)) (lit s)
  end.

Fixpoint lit_i (s : string) : regex :=
  match s with
  | EmptyString => Eps
  | String c EmptyString => Chr (is_char_i c)
  | String c s => Seq (Chr (is_char_i c)) (lit_i s)
  end.

(** One way of matching: the text taken, the text of group 1 when the
    group took part, and the text left. *)
Record hit : Type := Hit { taken : string; group1 : option string; rest : string }.

Definition hit0 (s : string) : hit := Hit "" None s.

Definition hit_then (h1 h2 : hit) : hit :=
  Hit (taken h1 +:+ taken h2)
      (match group1 h2 with Some g => Some g | None => group1 h1 end)
      (rest h2).

(** Greedy iteration of [step]: one more iteration first, stopping second.
    An iteration that took nothing is not repeated. *)
Fixpoint star_go (step : string → list hit) (fuel : nat) (s : string) : list hit :=
  match fuel with
  | O => [hit0 s]
  | S fuel =>
      (h1 ← step s;
       match taken h1 with
       | EmptyString => []
       | _ => h2 ← star_go step fuel (rest h1); [hit_then h1 h2]
       end) ++ [hit0 s]
  end.

Fixpoint matches (r : regex) (s : string) : list hit :=
  match r with
  | Eps => [hit0 s]
  | Chr p =>
      match s with
      | String a s' => if p a then [Hit (String a "") None s'] else []
      | EmptyString => []
      end
  | Seq r1 r2 => h1 ← matches r1 s; h2 ← matches r2 (rest h1); [hit_then h1 h2]
  | Alt r1 r2 => matches r1 s ++ matches r2 s
  | Star r1 => star_go (matches r1) (String.length s) s
  | Group r1 => h ← matches r1 s; [Hit (taken h) (Some (taken h)) (rest h)]
  | Ahead r1 => match matches r1 s with [] => [] | _ :: _ => [hit0 s] end
  | NotAhead r1 => match matches r1 s with [] => [hit0 s] | _ :: _ => [] end
  end.

(** [re.search]: the first match at the leftmost position that has one. *)
Fixpoint search (r : regex) (s : string) : option hit :=
  match matches r s with
  | h :: _ => Some h
  | [] =>
      match s with
      | EmptyString => None
      | String _ s' => search r s'
      end
  end.

(** [re.findall] for a pattern with one group: the text of group 1 of every
    match, the scan resuming where the previous match ended (one character
    further after an empty match). *)
Fixpoint findall_go (r : regex) (fuel : nat) (s : string) : list string :=
  match fuel with
  | O => []
  | S fuel =>
      match search r s with
      | None => []
      | Some h =>
          default "" (group1 h) ::
          match taken h, rest h with
          | EmptyString, EmptyString => []
          | EmptyString, String _ s' => findall_go r fuel s'
          | _, s' => findall_go r fuel s'
          end
      end
  end.

Definition findall (r : regex) (s : string) : list string :=
  findall_go r (S (String.length s)) s.

(** [s[n:]] *)
Fixpoint drop_str (n : nat) (s : string) : string :=
  match n, s with
  | O, _ => s
  | S n, String _ s' => drop_str n s'
  | S _, EmptyString => EmptyString
  end.

(** [Pattern.findall(string, pos)]: the scan starts at index [pos]. *)
Definition findall_from (r : regex) (s : string) (pos : nat) : list string :=
  findall r (drop_str pos s).

(** ** The patterns of the module *)

(** [(?:copyrights?|\s*\xa9|\s*\(c\))[\s:|,]*((?=.*[a-z])\d{2,4}(?:(?!all\srights).)+)]
    compiled with [re.IGNORECASE]; [\xa9] stands for the copyright sign.
    The pattern is given in four parts: the marker [(?:copyrights?|\s*\xa9|\s*\(c\))],
    the separators [[\s:|,]*], and in the group the look-ahead [(?=.*[a-z])]
    and the year and text [\d{2,4}(?:(?!all\srights).)+]. *)
Definition COPYRIGHT_MARKER : regex :=
  alt [ cat [lit_i "copyright"; Opt (Chr (is_char_i "s"))];
        cat [Star (Chr is_space); Chr (is_char_i COPYRIGHT_SIGN)];
        cat [Star (Chr is_space); lit_i "(c)"] ].

Definition COPYRIGHT_SEP : regex :=
  Star (Chr (λ a, is_space a || is_char ":" a || is_char "|" a || is_char "," a)).

Definition LETTER_AHEAD : regex := Ahead (cat [Star (Chr is_dot); Chr is_az_i]).

Definition YEAR_AND_TEXT : regex :=
  cat [ Rep_2_4 (Chr is_digit);
        Plus (cat [ NotAhead (cat [lit_i "all"; Chr is_space; lit_i "rights"]);
                    Chr is_dot ]) ].

Definition COPYRIGHT_RE : regex :=
  cat [ COPYRIGHT_MARKER; COPYRIGHT_SEP; Group (cat [LETTER_AHEAD; YEAR_AND_TEXT]) ].

(** [find library (G) needed] where the group [G] is [.+\.so[.\d]*]. *)
Definition DPKG_SHLIBS_RE : regex :=
  cat [ lit "find library ";
        Group (cat [ Plus (Chr is_dot); lit ".so";
                     Star (Chr (λ a, is_char "." a || is_digit a)) ]);
        lit " needed" ].

(** [(G):\s(?:/usr/lib/|/lib/)] where the group [G] is [.*lib.+]. *)
Definition APT_FILE_RE : regex :=
  cat [ Group (cat [Star (Chr is_dot); lit "lib"; Plus (Chr is_dot)]);
        lit ":"; Chr is_space; alt [lit "/usr/lib/"; lit "/lib/"] ].

(** [([^=\s,()]+)\s?(?:\([^)]+\))?], the pattern of [parse_substvars]. *)
Definition SUBSTVARS_RE : regex :=
  cat [ Group (Plus (Chr (λ a, negb (is_char "=" a || is_space a || is_char "," a
                                      || is_char "(" a || is_char ")" a))));
        Opt (Chr is_space);
        Opt (cat [lit "("; Plus (Chr (λ a, negb (is_char ")" a))); lit ")"]) ].

(** ** Python built-ins used by the module *)

Definition NL : string := String LF "".

(** The flag [re.MULTILINE]; as an integer it is 8. *)
Definition MULTILINE : nat := 8.

Section sorted.
Context {A : Type} (le : A → A → bool).

Fixpoint insert_sorted (x : A) (l : list A) : list A :=
  match l with
  | [] => [x]
  | y :: l' => if le x y then x :: y :: l' else y :: insert_sorted x l'
  end.

(** [sorted(l)] and [sorted(l, key=...)]: a stable sort, elements that
    compare equal keep the order they had in [l]. *)
Definition sorted (l : list A) : list A := foldr insert_sorted [] l.
End sorted.

(** The order of [str]: by code point, position by position. *)
Definition str_le (s1 s2 : string) : bool := String.leb s1 s2.

(** The order [sorted(..., key=len)] sorts by. *)
Definition len_le (s1 s2 : string) : bool := (String.length s1 <=? String.length s2)%nat.

(** [s[-3:]] *)
Definition last3 (s : string) : string := drop_str (String.length s - 3) s.

(** [s.startswith(p)] *)
Fixpoint is_prefix (p s : string) : bool :=
  match p, s with
  | EmptyString, _ => true
  | String a p', String b s' => Ascii.eqb a b && is_prefix p' s'
  | String _ _, EmptyString => false
  end.

(** [sub in s] *)
Fixpoint contains (sub s : string) : bool :=
  is_prefix sub s ||
  match s with
  | EmptyString => false
  | String _ s' => contains sub s'
  end.

(** [sep.join(l)] *)
Fixpoint join (sep : string) (l : list string) : string :=
  match l with
  | [] => ""
  | [s] => s
  | s :: l' => s +:+ sep +:+ join sep l'
  end.

(** [s.split('.')[0]] *)
Fixpoint before_dot (s : string) : string :=
  match s with
  | EmptyString => ""
  | String a s' => if is_char "." a then "" else String a (before_dot s')
  end.

(** [f.readlines()]: the lines of a text, each with its line feed. *)
Fixpoint readlines_go (cur : string) (s : string) : list string :=
  match s with
  | EmptyString => match cur with EmptyString => [] | _ => [String.rev cur] end
  | String a s' =>
      if is_char LF a then String.rev (String a cur) :: readlines_go "" s'
      else readlines_go (String a cur) s'
  end.

Definition readlines (s : string) : list string := readlines_go "" s.

(** Truth value of an attribute that is [None] or a [str]. *)
Definition truthy (o : option string) : bool :=
  match o with
  | Some (String _ _) => true
  | _ => false
  end.

(** ** The log *)

Inductive level : Type := DEBUG | INFO | WARNING | ERROR.

Inductive value : Type :=
  | VStr (s : string)
  | VList (l : list string)
  | VSet (X : gset string).

Record log_record : Type := LogRecord { lvl : level; msg : string; args : list value }.

(** ** The collaborators: wheel, context *)

Record VersionRange : Type := { vr_min : option string; vr_max : option string }.

Record Wheel : Type := {
  wheel_name : string;
  wheel_version : string;
  arch_tag : string;
  home_page : string;
  summary : string;
  metadata_license : option string;
  (** [wheel.version_range(pyvers)], for the major version of [pyvers] *)
  version_range : nat → option VersionRange;
  (** [wheel.extract_path.parent] and [wheel.extract_path.name] *)
  extract_parent : string;
  extract_name : string;
  record_lib_dirs : list string;
  record_libs : list string;
  record_licenses : list string;
  record_scripts : list string
}.

Record Context : Type := {
  python_major : nat;
  revision : string;
  epoch : option string;
  ctx_depends : list string
}.

(** [s.split(c)] for a separator of one character. *)
Fixpoint split_on (c : ascii) (s : string) : list string :=
  match s with
  | EmptyString => [""]
  | String a s' =>
      if Ascii.eqb a c then "" :: split_on c s'
      else match split_on c s' with
           | x :: l => String a x :: l
           | [] => [String a ""]
           end
  end.

(** [pathlib] on POSIX.  A path is held as its [str]; parsed, it is a root
    (two slashes when the text starts with exactly two, one slash when it
    starts with one or with more than two, none otherwise) and components,
    the texts between slashes that are neither empty nor a dot. *)
Definition path_root (s : string) : string :=
  match s with
  | String "/" (String "/" (String "/" _)) => "/"
  | String "/" (String "/" _) => "//"
  | String "/" _ => "/"
  | _ => ""
  end.

Definition path_parts (s : string) : list string :=
  filter (λ x, x ≠ "" ∧ x ≠ ".") (split_on "/" s).

(** [str(p)] *)
Definition path_str (root : string) (parts : list string) : string :=
  match root, parts with
  | EmptyString, [] => "."
  | _, _ => root +:+ join "/" parts
  end.

(** [str(a / b)]: an absolute [b] replaces [a], a relative one adds its
    components to those of [a]. *)
Definition path_join (a b : string) : string :=
  if is_prefix "/" b then path_str (path_root b) (path_parts b)
  else path_str (path_root a) (path_parts a ++ path_parts b).

(** ** The package descriptor *)

Definition DEBIAN_VERS_ARCH : gmap string string :=
  list_to_map [
    ("manylinux1_x86_64", "amd64");
    ("manylinux1_i686", "i686");
    ("linux_armv7l", "armhf");
    ("linux_armv6l", "armhf");
    ("linux_x86_64", "amd64");
    ("linux_i686", "amd64");
    ("any", "all")
  ].

Record SourcePackage : Type := {
  wheel : Wheel;
  ctx : Context;
  root : string;
  src : string;
  debian : string;
  name : string;
  version : string;
  homepage : string;
  description : string;
  extended_desc : string;
  license : string;
  arch : string;
  filename : string;
  interpreter : string;
  depends : list string;
  build_deps : gset string;
  install_path : string
}.

Definition set_build_deps (self : SourcePackage) (X : gset string) : SourcePackage :=
  {| wheel := wheel self; ctx := ctx self; root := root self; src := src self;
     debian := debian self; name := name self; version := version self;
     homepage := homepage self; description := description self;
     extended_desc := extended_desc self; license := license self;
     arch := arch self; filename := filename self; interpreter := interpreter self;
     depends := depends self; build_deps := X; install_path := install_path self |}.

(** Lines 72-76: the architecture of the package and what is logged. *)
Definition resolve_arch (tag : string) : string * list log_record :=
  match DEBIAN_VERS_ARCH !! tag with
  | Some a => (a, [])
  | None => ("all", [LogRecord ERROR "unknown platform tag, assuming arch=all" []])
  end.

(** Line 81 *)
Definition interpreter_of (major : nat) : string :=
  if (major =? 2)%nat then "python" else "python3".

(** Lines 84-92: the dependencies on the interpreter. *)
Definition interpreter_depends (interp : string) (vrange : option VersionRange) : list string :=
  let depends := [interp +:+ ":any"] in
  match vrange with
  | Some vrange =>
      let depends :=
        if truthy (vr_max vrange)
        then depends ++ [interp +:+ " (<< " +:+ default "" (vr_max vrange) +:+ ")"]
        else depends in
      if truthy (vr_min vrange)
      then depends ++ [interp +:+ " (>= " +:+ default "" (vr_min vrange) +:+ "~)"]
      else depends
  | None => depends
  end.

Section SourcePackage.
(** Defined outside [debian.py]: [__version__], [depends.suggest_name],
    [depends.search_python_deps] (which returns the dependencies found and
    the requirements it could not satisfy). *)
Context (VERSION : string).
Context (suggest_name : Context → string → string).
Context (search_python_deps :
           Context → Wheel → option (list string) → list string * list string).

Definition EXTENDED_DESC : string :=
  "This package was generated by wheel2deb.py v" +:+ VERSION.

(** [SourcePackage.__init__]: the descriptor, the records logged and the
    text written to [missing.txt]. *)
Definition init (ctx : Context) (wheel : Wheel) (extras : option (list string))
    : SourcePackage * list log_record * string :=
  let root := extract_parent wheel in
  let src := extract_name wheel in
  let debian := path_join root "debian" in
  let name := suggest_name ctx (wheel_name wheel) in
  let version :=
    wheel_version wheel +:+ "-" +:+ revision ctx +:+ "~w2d" +:+ before_dot VERSION in
  let version :=
    if truthy (epoch ctx) then default "" (epoch ctx) +:+ ":" +:+ version else version in
  let license := if truthy (metadata_license wheel)
                 then default "" (metadata_license wheel) else "custom" in
  let '(arch, logs) := resolve_arch (arch_tag wheel) in
  let filename := name +:+ "_" +:+ version +:+ "_" +:+ arch +:+ ".deb" in
  let interpreter := interpreter_of (python_major ctx) in
  let depends := interpreter_depends interpreter (version_range wheel (python_major ctx)) in
  let '(deps, missing) := search_python_deps ctx wheel extras in
  let depends := depends ++ deps in
  let depends := depends ++ ctx_depends ctx in
  let install_path :=
    if (python_major ctx =? 2)%nat then "/usr/lib/python2.7/dist-packages/"
    else "/usr/lib/python3/dist-packages/" in
  ({| wheel := wheel; ctx := ctx; root := root; src := src; debian := debian;
      name := name; version := version; homepage := home_page wheel;
      description := summary wheel; extended_desc := EXTENDED_DESC;
      license := license; arch := arch; filename := filename;
      interpreter := interpreter; depends := depends;
      build_deps := {[ "debhelper" ]}; install_path := install_path |},
   logs, join NL missing +:+ NL).
End SourcePackage.

(** ** The world around a conversion: files, processes, log *)

Record World : Type := {
  files : gmap string string;      (** text files, by path *)
  spawned : list (list string);    (** command lines run through [shell], oldest first *)
  journal : list log_record        (** records logged, oldest first *)
}.

(** A method either returns a value in a new world or lets an exception
    escape ([None]). *)
Definition M (A : Type) : Type := World → option (A * World).

Global Instance M_ret : MRet M := λ A a w, Some (a, w).

Global Instance M_bind : MBind M := λ A B k m w,
  match m w with
  | Some (a, w') => k a w'
  | None => None
  end.

Definition log (l : level) (m : string) (a : list value) : M unit :=
  λ w, Some (tt, {| files := files w; spawned := spawned w;
                    journal := journal w ++ [LogRecord l m a] |}).

Definition log_all (rs : list log_record) : M unit :=
  λ w, Some (tt, {| files := files w; spawned := spawned w; journal := journal w ++ rs |}).

Definition is_file (path : string) : M bool :=
  λ w, Some (bool_decide (is_Some (files w !! path)), w).

(** [Path.read_text()] and [open().read()]: the text of the file, an
    exception when there is no such file.  The text is given as it is
    stored: the translation of carriage returns that a read in text mode
    does is left out, so that a statement that names the text read is made
    for texts without carriage return ([unix_text] below). *)
Definition read_text (path : string) : M string :=
  λ w, match files w !! path with
       | Some txt => Some (txt, w)
       | None => None
       end.

(** [open('w')] and [write]: the file holds the text afterwards.  A write
    that the file system refuses is left out: what is stated of a method
    that writes is stated of the runs in which it returns. *)
Definition write_text (path txt : string) : M unit :=
  λ w, Some (tt, {| files := <[path := txt]> (files w); spawned := spawned w;
                    journal := journal w |}).

Definition when (b : bool) (m : M unit) : M unit := if b then m else mret tt.

Fixpoint for_each {A S} (l : list A) (body : A → S → M S) (s : S) : M S :=
  match l with
  | [] => mret s
  | a :: l' => s' ← body a s; for_each l' body s'
  end.

(** The two warnings of lines 302 and 309-312. *)
Definition MSG_NO_PROVIDER : string := "did not find a package providing %s".
Definition MSG_SEVERAL : string :=
  "several packages providing %s: %s, picking %s, edit debian/control to use another one.".

(** Lines 298-312: from the packages named by [apt-file], in the order the
    set hands them out, the package picked for [lib] and what is logged. *)
Definition select_provider (lib : string) (packages : list string)
    : option string * list log_record :=
  let packages := filter (λ p, last3 p ≠ "dbg") packages in
  let '(picked, packages, logs) :=
    if (length packages =? 0)%nat
    then (None, packages, [LogRecord WARNING MSG_NO_PROVIDER [VStr lib]])
    else
      let packages := sorted len_le packages in
      (head packages, packages, []) in
  let logs :=
    if (1 <? length packages)%nat
    then logs ++ [LogRecord WARNING MSG_SEVERAL
                    [VStr lib; VList packages; VStr (default "" (head packages))]]
    else logs in
  (picked, logs).

Section methods.
(** [tools.shell]: from the command line, the working directory and the
    files, the output, the return code and the files the process leaves;
    [None] when the call raises. *)
Context (shell_run :
           list string → option string → gmap string string →
           option (string * Z * gmap string string)).
(** The order in which a set is iterated. *)
Context (set_iter : gset string → list string).
(** [jinja2]: the text of a template for a package and keyword arguments. *)
Context (render : string → SourcePackage → list (string * value) → string).

Definition shell (cmd : list string) (cwd : option string) : M (string * Z) :=
  λ w, match shell_run cmd cwd (files w) with
       | Some (out, rc, fs) =>
           Some ((out, rc), {| files := fs; spawned := spawned w ++ [cmd];
                               journal := journal w |})
       | None => None
       end.

Definition dump_tpl (self : SourcePackage) (tpl_name file : string)
    (kwargs : list (string * value)) : M unit :=
  write_text file (render tpl_name self kwargs).

(** Lines 173-184: the copyright statements of the license texts. *)
Definition gather_copyrights (contents : list string) : list string :=
  let copyrights :=
    foldl (λ (acc : gset string) content, acc ∪ list_to_set (findall COPYRIGHT_RE content))
          ∅ contents in
  sorted str_le (set_iter copyrights).

(** Lines 188-192 *)
Definition pick_license_file (licenses : list string) : string :=
  let license_file :=
    foldl (λ acc file, if contains "dist-info" file then Some file else acc) None licenses in
  if truthy license_file then default "" license_file else default "" (head licenses).

(** [SourcePackage.copyright]; it returns the statements it gathered, or
    [None] when the wheel has no license. *)
Definition copyright (self : SourcePackage) : M (option (list string)) :=
  let licenses := record_licenses (wheel self) in
  let extract_path := path_join (root self) (src self) in
  match licenses with
  | [] => log WARNING "no license found !" [];; mret None
  | _ :: _ =>
      contents ← for_each licenses
                    (λ lic acc, content ← read_text (path_join extract_path lic);
                                mret (acc ++ [content])) [];
      let copyrights := gather_copyrights contents in
      log DEBUG "found the following copyrights: %s" [VList copyrights];;
      let license_file := pick_license_file licenses in
      text ← read_text (path_join extract_path license_file);
      let license_content := foldl (λ acc line, acc +:+ " " +:+ line) "" (readlines text) in
      match license_content with
      | String _ _ =>
          dump_tpl self "copyright.j2" (path_join (debian self) "copyright")
            [("license", VStr (license self)); ("license_content", VStr license_content);
             ("copyrights", VList copyrights)]
      | EmptyString => log WARNING "license not found !" []
      end;;
      mret (Some copyrights)
  end.

(** Lines 270-274 *)
Definition parse_substvars (self : SourcePackage) (shlibdeps : gset string)
    : M (gset string) :=
  let path := path_join (debian self) "substvars" in
  present ← is_file path;
  if present : bool then
    subsvars ← read_text path;
    let subsvars := drop_str 15 subsvars in
    let m := findall SUBSTVARS_RE subsvars in
    mret (shlibdeps ∪ list_to_set m)
  else mret shlibdeps.

(** Lines 295-312: one missing library. *)
Definition search_provider (lib : string) (shlibdeps : gset string) : M (gset string) :=
  output ← shell ["apt-file"; "search"; lib] None;
  let packages : gset string := list_to_set (findall APT_FILE_RE output.1) in
  let '(picked, logs) := select_provider lib (set_iter packages) in
  log_all logs;;
  mret (match picked with Some p => shlibdeps ∪ {[ p ]} | None => shlibdeps end).

(** [SourcePackage.search_shlibs_deps] *)
Definition search_shlibs_deps (self : SourcePackage) : M SourcePackage :=
  let lib_dirs := record_lib_dirs (wheel self) in
  shlibdeps ← parse_substvars self ∅;
  '(shlibdeps, missing_libs) ←
    (if bool_decide (lib_dirs ≠ []) && bool_decide (shlibdeps = ∅) then
       let args := ["dpkg-shlibdeps"]
                   ++ ((λ x, "-l" +:+ path_join (src self) x) <$> lib_dirs)
                   ++ ((λ x, path_join (src self) x) <$> record_libs (wheel self)) in
       output ← shell args (Some (root self));
       let missing_libs : gset string :=
         list_to_set (findall_from DPKG_SHLIBS_RE output.1 MULTILINE) in
       shlibdeps ← parse_substvars self shlibdeps;
       mret (shlibdeps, missing_libs)
     else mret (shlibdeps, (∅ : gset string)));
  shlibdeps ←
    (if bool_decide (missing_libs ≠ ∅) then
       log INFO "dpkg-shlibdeps reported the following missing shared libs dependencies: %s"
           [VSet missing_libs];;
       shlibdeps ← for_each (set_iter missing_libs) search_provider shlibdeps;
       when (bool_decide (shlibdeps ≠ ∅))
            (log INFO "detected dependencies: %s" [VSet shlibdeps]);;
       mret shlibdeps
     else mret shlibdeps);
  mret (set_build_deps self
         (build_deps self ∪ set_map (λ p, p +:+ ":" +:+ arch self) shlibdeps)).
End methods.

(** ** [fix_shebangs] *)

(** ['%s' % n] for an [int] that is not negative. *)
Definition str_of_nat (n : nat) : string := DecimalString.NilEmpty.string_of_uint (Nat.to_uint n).

(** [s.split('\n')] *)
Fixpoint split_nl (s : string) : list string :=
  match s with
  | EmptyString => [""]
  | String a s' =>
      if is_char LF a then "" :: split_nl s'
      else match split_nl s' with
           | x :: l => String a x :: l
           | [] => [String a ""]
           end
  end.

(** [wheel.extract_path] *)
Definition extract_path (wh : Wheel) : string :=
  path_join (extract_parent wh) (extract_name wh).

(** Line 253 *)
Definition shebang_of (self : SourcePackage) : string :=
  "#!/usr/bin/env python" +:+ str_of_nat (python_major (ctx self)).

(** Lines 252-260, for one script. *)
Definition fix_shebang (self : SourcePackage) (file : string) : M unit :=
  content ← read_text file;
  let shebang := shebang_of self in
  if negb (is_prefix shebang content) then
    let content := split_nl content in
    let content := <[0 := shebang]> content in
    let content := join NL content in
    write_text file content
  else mret tt.

(** [SourcePackage.fix_shebangs] *)
Definition fix_shebangs (self : SourcePackage) : M unit :=
  let files := (λ x, path_join (extract_path (wheel self)) x) <$> record_scripts (wheel self) in
  for_each files (λ file _, fix_shebang self file) tt.

(** ** The files of the [debian] directory *)

(** [s.endswith(suffix)] *)
Definition endswith (suffix s : string) : bool :=
  String.eqb (drop_str (String.length s - String.length suffix) s) suffix.

Section packaging.
Context (shell_run :
           list string → option string → gmap string string →
           option (string * Z * gmap string string)).
Context (set_iter : gset string → list string).
Context (render : string → SourcePackage → list (string * value) → string).
(** A world holds the text of files, not the directories: [os.listdir]
    ([None] when it raises) and [Path.exists] are read off the files by
    functions left open, and [Path.mkdir] changes no file. *)
Context (listdir : string → gmap string string → option (list string)).
Context (path_exists : string → gmap string string → bool).
(** Attributes the other methods do not read: the truth values of
    [wheel.entrypoints] and of [ctx.ignore_entry_points]. *)
Context (entrypoints : Wheel → bool).
Context (ignore_entry_points : Context → bool).
(** Defined outside [debian.py]: [entrypoints.run_install_scripts], called
    with the wheel, the context (for its [python_version]) and the root. *)
Context (run_install_scripts : Wheel → Context → string → M unit).

Definition os_listdir (path : string) : M (list string) :=
  λ w, match listdir path (files w) with
       | Some l => Some (l, w)
       | None => None
       end.

Definition exists_ (path : string) : M bool := λ w, Some (path_exists path (files w), w).

Definition mkdir (path : string) : M unit := mret tt.

(** [SourcePackage.control] *)
Definition control (self : SourcePackage) : M unit :=
  dump_tpl render self "control.j2" (path_join (debian self) "control") [].

(** [SourcePackage.compat] *)
Definition compat (self : SourcePackage) : M unit :=
  write_text (path_join (debian self) "compat") "9".

(** [SourcePackage.changelog] *)
Definition changelog (self : SourcePackage) : M unit :=
  dump_tpl render self "changelog.j2" (path_join (debian self) "changelog") [].

(** [SourcePackage.install] *)
Definition install (self : SourcePackage) : M unit :=
  dirs ← os_listdir (extract_path (wheel self));
  install ← for_each dirs
    (λ d (install : gset string),
       if negb (endswith ".data" d) then
         mret (install ∪ {[ path_join (src self) d +:+ " " +:+ install_path self ]})
       else
         let purelib := path_join (path_join (extract_path (wheel self)) d) "purelib" in
         present ← exists_ purelib;
         if present : bool then
           mret (install
                 ∪ {[ path_join (path_join (path_join (src self) d) "purelib") "*"
                      +:+ " " +:+ install_path self ]})
         else mret install) ∅;
  install ←
    (if entrypoints (wheel self) && negb (ignore_entry_points (ctx self)) then
       run_install_scripts (wheel self) (ctx self) (root self);;
       mret (install ∪ {[ "entrypoints/* /usr/bin/" ]})
     else mret install);
  let install :=
    foldl (λ (install : gset string) script,
             install ∪ {[ path_join (src self) script +:+ " /usr/bin/" ]})
          install (record_scripts (wheel self)) in
  write_text (path_join (debian self) "install") (join NL (set_iter install)).

(** Lines 161-163 *)
Definition shlibdeps_params (self : SourcePackage) : string :=
  join "" ((λ x, " -l" +:+ path_join (src self) x) <$> record_lib_dirs (wheel self)).

(** [SourcePackage.rules] *)
Definition rules (self : SourcePackage) : M unit :=
  dump_tpl render self "rules.j2" (path_join (debian self) "rules")
    [("shlibdeps_params", VStr (shlibdeps_params self))].

(** [SourcePackage.postinst] *)
Definition postinst (self : SourcePackage) : M unit :=
  dump_tpl render self "postinst.j2" (path_join (debian self) "postinst") [].

(** [SourcePackage.prerm] *)
Definition prerm (self : SourcePackage) : M unit :=
  dump_tpl render self "prerm.j2" (path_join (debian self) "prerm") [].

(** Lines 224-235 of [create]: all that comes before the search of the
    shared libraries. *)
Definition create_files (self : SourcePackage) : M unit :=
  present ← exists_ (debian self);
  when (negb present) (mkdir (debian self));;
  fix_shebangs self;;
  control self;;
  compat self;;
  changelog self;;
  install self;;
  rules self;;
  copyright set_iter render self;;
  postinst self;;
  prerm self.

(** [SourcePackage.create]; the descriptor it returns is [self] as the
    search of the shared libraries left it. *)
Definition create (self : SourcePackage) : M SourcePackage :=
  create_files self;;
  (* dpkg-shlibdeps won't work without debian/control *)
  self ← search_shlibs_deps shell_run set_iter self;
  control self;;
  mret self.
End packaging.

(** * Vocabulary of the statements, sample data *)

(** The values of [DEBIAN_VERS_ARCH], and [all]. *)
Definition ARCHITECTURES : list string := ["amd64"; "i686"; "armhf"; "all"].

(** The ranges (min 3.2, no max) and (no min, max 4.0). *)
Definition range_from_3_2 : VersionRange := {| vr_min := Some "3.2"; vr_max := None |}.
Definition range_below_4_0 : VersionRange := {| vr_min := None; vr_max := Some "4.0" |}.

(** The filter of line 299. *)
Definition not_dbg (p : string) : Prop := last3 p ≠ "dbg".

(** [p] is, in the order of [packages], the first of the candidates that
    are not debug packages and have the shortest name: no such candidate
    before it has a name as short, none after it has a shorter one. *)
Definition first_shortest (p : string) (packages : list string) : Prop :=
  ∃ before after,
    packages = before ++ p :: after ∧ not_dbg p ∧
    (∀ q, q ∈ before → not_dbg q → String.length p < String.length q) ∧
    (∀ q, q ∈ after → not_dbg q → String.length p ≤ String.length q).

(** The set [copyrights] once the loop of lines 180-182 is over. *)
Definition found_in (contents : list string) : gset string :=
  foldl (λ (acc : gset string) content, acc ∪ list_to_set (findall COPYRIGHT_RE content))
        ∅ contents.

(** What [parse_substvars] reads in the text of [debian/substvars]. *)
Definition parsed_substvars (txt : string) : list string :=
  findall SUBSTVARS_RE (drop_str 15 txt).

(** The set comprehension of line 317. *)
Definition tagged (self : SourcePackage) (shlibdeps : gset string) : gset string :=
  set_map (λ p, p +:+ ":" +:+ arch self) shlibdeps.

(** The packages [apt-file] names in [out], in the order the set hands them out. *)
Definition candidates (set_iter : gset string → list string) (out : string) : list string :=
  set_iter (list_to_set (findall APT_FILE_RE out)).

(** The world after [apt-file search lib] left the files [fs] and [logs] were logged. *)
Definition after_apt_file (w : World) (lib : string) (fs : gmap string string)
    (logs : list log_record) : World :=
  {| files := fs; spawned := spawned w ++ [["apt-file"; "search"; lib]];
     journal := journal w ++ logs |}.

(** A hit splits the text it was found in. *)
Definition splits (s : string) (h : hit) : Prop := s = taken h +:+ rest h.

(** [re.search] with the index at which the match starts. *)
Fixpoint search_at (r : regex) (s : string) : option (nat * hit) :=
  match matches r s with
  | h :: _ => Some (0, h)
  | [] =>
      match s with
      | EmptyString => None
      | String _ s' => (λ kh, (S kh.1, kh.2)) <$> search_at r s'
      end
  end.

(** [re.finditer]: the matches [findall] goes through, in the order of the
    scan, each with the index at which it starts; [pos] is the index of
    [s] in the text that is scanned. *)
Fixpoint finditer_go (r : regex) (fuel pos : nat) (s : string) : list (nat * hit) :=
  match fuel with
  | O => []
  | S fuel =>
      match search_at r s with
      | None => []
      | Some (k, h) =>
          (pos + k, h) ::
          match taken h, rest h with
          | EmptyString, EmptyString => []
          | EmptyString, String _ s' => finditer_go r fuel (pos + k + 1) s'
          | t, s' => finditer_go r fuel (pos + k + String.length t) s'
          end
      end
  end.

Definition finditer (r : regex) (s : string) : list (nat * hit) :=
  finditer_go r (S (String.length s)) 0 s.

(** What [findall] gives for a match. *)
Definition captured (kh : nat * hit) : string := default "" (group1 kh.2).

(** The first character of [s] is in the class [p]. *)
Definition starts_with (p : ascii → bool) (s : string) : bool :=
  match s with
  | String a _ => p a
  | EmptyString => false
  end.

(** Every character of [s] is in the class [p]. *)
Fixpoint all_chars (p : ascii → bool) (s : string) : bool :=
  match s with
  | EmptyString => true
  | String a s' => p a && all_chars p s'
  end.

(** Replaces [matches pat s] in the goal by its value. *)
Ltac run_matches pat :=
  match goal with
  | |- context [matches ?r ?s] =>
      unify r pat;
      let v := eval vm_compute in (matches r s) in
      replace (matches r s) with v by (vm_compute; reflexivity)
  end.

(** ** Sample data *)

Definition sample_ctx : Context :=
  {| python_major := 3; revision := "1"; epoch := None; ctx_depends := [] |}.

Definition sample_wheel : Wheel :=
  {| wheel_name := "numpy"; wheel_version := "1.16.2"; arch_tag := "manylinux1_x86_64";
     home_page := "https://www.numpy.org"; summary := "array processing";
     metadata_license := Some "BSD";
     version_range := λ _, Some {| vr_min := Some "3.5"; vr_max := None |};
     extract_parent := "/tmp/numpy"; extract_name := "src";
     record_lib_dirs := ["numpy/.libs"]; record_libs := ["numpy/.libs/libopenblas.so.0"];
     record_licenses := ["numpy-1.16.2.dist-info/LICENSE.txt"]; record_scripts := [] |}.

Definition sample_package : SourcePackage :=
  (init "0.4.1" (λ _ n, "python3-" +:+ n) (λ _ _ _, ([], [])) sample_ctx sample_wheel None).1.1.

Definition empty_world : World := {| files := ∅; spawned := []; journal := [] |}.

(** A [debian/substvars] left by an earlier run, and a world that holds it. *)
Definition CACHED_SUBSTVARS : string :=
  "shlibs:Depends=libc6 (>= 2.14), libgcc1 (>= 1:3.0)" +:+ NL.

Definition cached_world : World :=
  {| files := {[ "/tmp/numpy/debian/substvars" := CACHED_SUBSTVARS ]};
     spawned := []; journal := [] |}.

(** A [shell] whose every command prints [out] and touches no file. *)
Definition shell_says (out : string)
    : list string → option string → gmap string string →
      option (string * Z * gmap string string) :=
  λ _ _ fs, Some (out, 0%Z, fs).

(** A [shell] whose [dpkg-shlibdeps] prints [out] and whose [apt-file]
    names one package, [libfoo1]; neither touches a file. *)
Definition analyzer_says (out : string)
    : list string → option string → gmap string string →
      option (string * Z * gmap string string) :=
  λ cmd _ fs,
    match cmd with
    | "dpkg-shlibdeps" :: _ => Some (out, 0%Z, fs)
    | _ => Some ("libfoo1: /usr/lib/libfoo.so.1" +:+ NL, 0%Z, fs)
    end.

(** A diagnostic of [dpkg-shlibdeps], without the prefix it prints before it. *)
Definition MESSAGE : string := "find library libfoo.so.1 needed by ./x.so".

(** The command line of [dpkg-shlibdeps] for [sample_package]. *)
Definition DPKG_CALL : list string :=
  ["dpkg-shlibdeps"; "-lsrc/numpy/.libs"; "src/numpy/.libs/libopenblas.so.0"].

(** Outputs of [apt-file search]. *)
Definition APT_LIBFOO : string :=
  "libfoo-dev: /usr/lib/x86_64-linux-gnu/libfoo.so" +:+ NL +:+
  "libfoo1: /usr/lib/x86_64-linux-gnu/libfoo.so.1" +:+ NL +:+
  "libfoo1-dbg: /usr/lib/debug/libfoo.so.1" +:+ NL.

Definition APT_TIE : string :=
  "liba1: /usr/lib/libx.so" +:+ NL +:+ "libb1: /usr/lib/libx.so" +:+ NL.

Definition APT_DBG_ONLY : string := "libfoo1-dbg: /usr/lib/debug/libfoo.so.1" +:+ NL.

(** What a run leaves: the build dependencies and the command lines run. *)
Definition outcome (r : option (SourcePackage * World))
    : option (list string * list (list string)) :=
  (λ '(self, w), (elements (build_deps self), spawned w)) <$> r.

(** One run of [search_provider] from no dependency, seen as a run of a method. *)
Definition search_provider_run shell_run set_iter (lib : string) (w : World)
    : option (SourcePackage * World) :=
  (λ '(shlibdeps, w'), (set_build_deps sample_package shlibdeps, w'))
    <$> search_provider shell_run set_iter lib ∅ w.

(** The sentence of the design document, and lines around it in a license file. *)
Definition SENTENCE : string := "Copyright (c) 2020 Jane Doe, All rights reserved.".
Definition LICENSE_HEAD : string := "The MIT License" +:+ NL +:+ NL.
Definition LICENSE_TAIL : string := NL +:+ "Permission is hereby granted, free of charge.".

(** A line with an earlier statement, which ends with its line. *)
Definition EARLIER_LINE : string := "Copyright 1999 Foo." +:+ NL.

(** The pattern has a capturing group. *)
Fixpoint has_group (r : regex) : bool :=
  match r with
  | Eps | Chr _ => false
  | Seq r1 r2 | Alt r1 r2 => has_group r1 || has_group r2
  | Star r1 | Ahead r1 | NotAhead r1 => has_group r1
  | Group _ => true
  end.

(** The character classes [[^=\s,()]] and [[.\d]] of the patterns. *)
Definition is_name_char (a : ascii) : bool :=
  negb (is_char "=" a || is_space a || is_char "," a || is_char "(" a || is_char ")" a).
Definition is_version_char (a : ascii) : bool := is_char "." a || is_digit a.

(** The shape of a library name [DPKG_SHLIBS_RE] captures. *)
Definition library_name (x : string) : Prop :=
  ∃ stem ver, x = stem +:+ ".so" +:+ ver ∧ stem ≠ "" ∧
              all_chars is_dot stem = true ∧ all_chars is_version_char ver = true.

(** The shape of a package name [APT_FILE_RE] captures. *)
Definition lib_package_name (x : string) : Prop :=
  ∃ before after, x = before +:+ "lib" +:+ after ∧ after ≠ "" ∧
                  all_chars is_dot before = true ∧ all_chars is_dot after = true.

(** The shape of a statement [COPYRIGHT_RE] captures. *)
Definition dated_statement (x : string) : Prop :=
  ∃ d1 d2 tail, x = String d1 (String d2 tail) ∧ is_digit d1 = true ∧ is_digit d2 = true ∧
                tail ≠ "" ∧ all_chars is_dot tail = true.

(** The names a [debian/substvars] of the world holds, none when it is not a file. *)
Definition cached (self : SourcePackage) (w : World) : list string :=
  match files w !! path_join (debian self) "substvars" with
  | Some txt => parsed_substvars txt
  | None => []
  end.

(** The command line of lines 280-283 and the one of line 295. *)
Definition dpkg_args (self : SourcePackage) : list string :=
  ["dpkg-shlibdeps"]
  ++ ((λ x, "-l" +:+ path_join (src self) x) <$> record_lib_dirs (wheel self))
  ++ ((λ x, path_join (src self) x) <$> record_libs (wheel self)).

Definition apt_args (lib : string) : list string := ["apt-file"; "search"; lib].

(** The libraries line 285 reads in the output of the analyzer. *)
Definition missing_in (output : string) : gset string :=
  list_to_set (findall_from DPKG_SHLIBS_RE output MULTILINE).

(** The paths of the scripts of a wheel, as [fix_shebangs] lists them. *)
Definition script_paths (self : SourcePackage) : list string :=
  (λ x, path_join (extract_path (wheel self)) x) <$> record_scripts (wheel self).

(** What follows the first line of a text: from its first line feed on. *)
Fixpoint after_first_line (s : string) : string :=
  match s with
  | EmptyString => ""
  | String a s' => if is_char LF a then s else after_first_line s'
  end.

(** The text [fix_shebang] leaves in a script that held [content]. *)
Definition fixed (shebang content : string) : string :=
  if is_prefix shebang content then content else shebang +:+ after_first_line content.

(** A text without carriage return.  A file is read in text mode, which
    turns a carriage return, with the line feed that follows it if any, into
    a line feed; a text without carriage return is read as it is stored. *)
Definition CR : ascii := ascii_of_nat 13.

Definition unix_text (s : string) : Prop :=
  all_chars (λ a, negb (Ascii.eqb a CR)) s = true.

(** The directory [copyright] reads the licenses in, and the file it writes. *)
Definition license_path (self : SourcePackage) (lic : string) : string :=
  path_join (path_join (root self) (src self)) lic.

Definition copyright_path (self : SourcePackage) : string :=
  path_join (debian self) "copyright".

(** The licenses whose name holds [dist-info]. *)
Definition dist_info_licenses (licenses : list string) : list string :=
  filter (λ file, contains "dist-info" file = true) licenses.

(** A file of the [debian] directory of a package. *)
Definition debian_file (self : SourcePackage) (file : string) : string :=
  path_join (debian self) file.

(** A relative path of one component, as the name of a file is. *)
Definition plain_name (a : string) : Prop :=
  is_prefix "/" a = false ∧ path_parts a = [a].

(** The step [m] leaves the file at [p] as it found it; what it leaves at
    [p] satisfies [P]. *)
Definition keeps {A} (p : string) (m : M A) : Prop :=
  ∀ w r w', m w = Some (r, w') → files w' !! p = files w !! p.

Definition leaves {A} (p : string) (P : option string → Prop) (m : M A) : Prop :=
  ∀ w r w', m w = Some (r, w') → P (files w' !! p).

(** The character class [[^)]] of the pattern of [parse_substvars]. *)
Definition not_closing (a : ascii) : bool := negb (is_char ")" a).

(** A dependency as [dpkg-shlibdeps] writes it in [debian/substvars]: the
    name of a package, then possibly a constraint on its version between
    brackets. *)
Definition dependency (d : string * option string) : string :=
  match d.2 with
  | Some constraint => d.1 +:+ " (" +:+ constraint +:+ ")"
  | None => d.1
  end.

Definition well_formed (d : string * option string) : Prop :=
  d.1 ≠ "" ∧ all_chars is_name_char d.1 = true ∧
  match d.2 with
  | Some constraint => constraint ≠ "" ∧ all_chars not_closing constraint = true
  | None => True
  end.

(** The line that holds the dependencies [deps] in [debian/substvars]. *)
Definition substvars_line (deps : list (string * option string)) : string :=
  "shlibs:Depends=" +:+ join ", " (dependency <$> deps).

(** ** More sample data *)

(** A wheel of pure Python that ships one script and three licenses, its
    package, and a world that holds what was extracted from it. *)
Definition TOOL_LICENSES : list string :=
  ["LICENSE"; "tool-1.0.dist-info/LICENSE"; "tool-1.0.dist-info/COPYING"].

Definition tool_wheel : Wheel :=
  {| wheel_name := "tool"; wheel_version := "1.0"; arch_tag := "any";
     home_page := "https://example.org/tool"; summary := "a tool";
     metadata_license := None; version_range := λ _, None;
     extract_parent := "/tmp/tool"; extract_name := "src";
     record_lib_dirs := []; record_libs := [];
     record_licenses := TOOL_LICENSES;
     record_scripts := ["tool-1.0.data/scripts/tool"] |}.

Definition tool_package : SourcePackage :=
  (init "0.4.1" (λ _ n, "python3-" +:+ n) (λ _ _ _, ([], [])) sample_ctx tool_wheel None).1.1.

Definition tool_world_with (script : string) : World :=
  {| files := {[ "/tmp/tool/src/tool-1.0.data/scripts/tool" := script;
                 "/tmp/tool/src/LICENSE" := SENTENCE +:+ NL;
                 "/tmp/tool/src/tool-1.0.dist-info/LICENSE" := SENTENCE +:+ NL;
                 "/tmp/tool/src/tool-1.0.dist-info/COPYING" := SENTENCE +:+ NL ]};
     spawned := []; journal := [] |}.

Definition tool_world : World :=
  tool_world_with ("#!python" +:+ NL +:+ "print(1)" +:+ NL).

(** The path of the script of the wheel. *)
Definition TOOL_SCRIPT_PATH : string := "/tmp/tool/src/tool-1.0.data/scripts/tool".

Definition tool_world_fixed : World :=
  tool_world_with ("#!/usr/bin/env python3" +:+ NL +:+ "print(1)" +:+ NL).

(** A [shell] that raises for every command. *)
Definition shell_raises
    : list string → option string → gmap string string →
      option (string * Z * gmap string string) :=
  λ _ _ _, None.

(** What [dpkg-shlibdeps] prints for a library it cannot find. *)
Definition DIAGNOSTIC : string := "dpkg-shlibdeps: error: cannot " +:+ MESSAGE +:+ NL.

(** The same wheel with a library at the top of the package, one in a
    directory of its own, and the directories that hold them. *)
Definition native_wheel : Wheel :=
  {| wheel_name := "tool"; wheel_version := "1.0"; arch_tag := "linux_x86_64";
     home_page := "https://example.org/tool"; summary := "a tool";
     metadata_license := None; version_range := λ _, None;
     extract_parent := "/tmp/tool"; extract_name := "src";
     record_lib_dirs := [""; "tool/.libs"];
     record_libs := ["tool.so"; "tool/.libs/libz.so.1"];
     record_licenses := TOOL_LICENSES;
     record_scripts := ["tool-1.0.data/scripts/tool"] |}.

Definition native_package : SourcePackage :=
  (init "0.4.1" (λ _ n, "python3-" +:+ n) (λ _ _ _, ([], [])) sample_ctx native_wheel None).1.1.

(** The script of the wheel, as it is extracted. *)
Definition TOOL_SCRIPT : string := "#!python" +:+ NL +:+ "print(1)" +:+ NL.

(** A template engine that names the template, the package and the texts
    it is given, a directory listing and an installation of the entry
    points that writes one script. *)
Definition sample_render : string → SourcePackage → list (string * value) → string :=
  λ tpl self kwargs,
    tpl +:+ " for " +:+ name self +:+
    join "" ((λ kv, match kv.2 with VStr v => ":" +:+ v | _ => "" end) <$> kwargs).

Definition sample_listdir : string → gmap string string → option (list string) :=
  λ _ _, Some ["tool"; "tool-1.0.data"; "tool-1.0.dist-info"].

Definition sample_install_scripts : Wheel → Context → string → M unit :=
  λ _ _ root, write_text (path_join root "entrypoints/tool") "#!/usr/bin/env python3".

(** The dependencies of [CACHED_SUBSTVARS]. *)
Definition CACHED_DEPENDENCIES : list (string * option string) :=
  [("libc6", Some ">= 2.14"); ("libgcc1", Some ">= 1:3.0")].

(** * Properties *)

(** ** The architecture of the package *)

Lemma DEBIAN_VERS_ARCH_values tag a :
  DEBIAN_VERS_ARCH !! tag = Some a → a ∈ ARCHITECTURES.
Proof.
  intros Hin%elem_of_list_to_map_2.
  unfold ARCHITECTURES.
  repeat (apply elem_of_cons in Hin as [[= _ <-] | Hin]; [set_solver |]).
  by apply elem_of_nil in Hin.
Qed.

(** C10: in the table the tag [linux_i686] maps to [amd64], the value of
    [linux_x86_64], while [manylinux1_i686] maps to [i686]: the two 32-bit
    x86 tags do not map to the same architecture. *)
Theorem arch_table_i686_entries :
  DEBIAN_VERS_ARCH !! "linux_i686" = Some "amd64" ∧
  DEBIAN_VERS_ARCH !! "linux_x86_64" = Some "amd64" ∧
  DEBIAN_VERS_ARCH !! "manylinux1_i686" = Some "i686" ∧
  DEBIAN_VERS_ARCH !! "linux_i686" ≠ DEBIAN_VERS_ARCH !! "manylinux1_i686".
Proof. vm_compute. repeat split; congruence. Qed.

(** C9: a tag of the table resolves to the value the table gives it and
    nothing is logged; any other tag resolves to [all] and one record is
    logged, through [logger.error]; so the architecture of a descriptor is
    one of the values of the table or [all]. *)
Theorem resolve_arch_table_or_all :
  ∀ VERSION suggest_name search_python_deps ctx wheel extras tag,
    (∀ a, DEBIAN_VERS_ARCH !! tag = Some a → resolve_arch tag = (a, [])) ∧
    (DEBIAN_VERS_ARCH !! tag = None →
     resolve_arch tag =
       ("all", [LogRecord ERROR "unknown platform tag, assuming arch=all" []])) ∧
    (resolve_arch tag).1 ∈ ARCHITECTURES ∧
    let '(self, logs, _) := init VERSION suggest_name search_python_deps ctx wheel extras in
    (arch self, logs) = resolve_arch (arch_tag wheel) ∧ arch self ∈ ARCHITECTURES.
Proof.
  intros VERSION suggest_name search_python_deps ctx wheel extras tag.
  assert (Hall : ∀ t, (resolve_arch t).1 ∈ ARCHITECTURES).
  { intros t. unfold resolve_arch.
    destruct (DEBIAN_VERS_ARCH !! t) as [a|] eqn:Ht; simpl.
    - by eapply DEBIAN_VERS_ARCH_values.
    - unfold ARCHITECTURES. set_solver. }
  split_and!.
  - intros a Ha. unfold resolve_arch. by rewrite Ha.
  - intros Hnone. unfold resolve_arch. by rewrite Hnone.
  - apply Hall.
  - unfold init. specialize (Hall (arch_tag wheel)).
    destruct (resolve_arch (arch_tag wheel)) as [a logs].
    destruct (search_python_deps ctx wheel extras) as [deps missing].
    simpl. split; [reflexivity | exact Hall].
Qed.

(** ** The dependencies on the interpreter *)

(** C5, as stated: there is a base specifier [baseDep] with which the list
    for the range from 3.2 is [[baseDep; baseDep + " (>= 3.2~)"]].  For
    [python3] there is none, and none for the range below 4.0 either. *)
Lemma interpreter_depends_bound_not_on_base :
  ¬ (∃ baseDep, interpreter_depends "python3" (Some range_from_3_2)
                = [baseDep; baseDep +:+ " (>= 3.2~)"]) ∧
  ¬ (∃ baseDep, interpreter_depends "python3" (Some range_below_4_0)
                = [baseDep; baseDep +:+ " (<< 4.0)"]).
Proof.
  split; intros [baseDep H]; vm_compute in H;
    injection H as <- H; discriminate H.
Qed.

(** C5, amended: the base specifier is the interpreter package with the
    qualifier [:any]; a bound names the interpreter package without the
    qualifier.  From 3.2 the list is [[interp:any; interp (>= 3.2~)]], below
    4.0 it is [[interp:any; interp (<< 4.0)]], without a range [[interp:any]],
    where [interp], the interpreter package of the descriptor, is [python]
    for the major version 2 and [python3] for every other one; the
    dependencies of the descriptor start with that list. *)
Theorem interpreter_depends_cases :
  ∀ major,
    let interp := interpreter_of major in
    (major = 2 → interp = "python") ∧
    (major ≠ 2 → interp = "python3") ∧
    interpreter_depends interp (Some range_from_3_2)
      = [interp +:+ ":any"; interp +:+ " (>= 3.2~)"] ∧
    interpreter_depends interp (Some range_below_4_0)
      = [interp +:+ ":any"; interp +:+ " (<< 4.0)"] ∧
    interpreter_depends interp None = [interp +:+ ":any"] ∧
    ∀ VERSION suggest_name search_python_deps ctx wheel extras,
      python_major ctx = major →
      let self := (init VERSION suggest_name search_python_deps ctx wheel extras).1.1 in
      interpreter self = interp ∧
      depends self = interpreter_depends interp (version_range wheel major)
                     ++ (search_python_deps ctx wheel extras).1 ++ ctx_depends ctx.
Proof.
  intros major interp. split_and!; try reflexivity.
  - intros ->. reflexivity.
  - intros Hne. unfold interp, interpreter_of.
    by destruct (Nat.eqb_spec major 2).
  - intros VERSION suggest_name search_python_deps ctx wheel extras <-.
    unfold init. destruct (resolve_arch (arch_tag wheel)) as [arch logs].
    destruct (search_python_deps ctx wheel extras) as [deps missing].
    cbn. split; [reflexivity|]. by rewrite <- app_assoc.
Qed.

Lemma interpreter_depends_head interp vrange :
  head (interpreter_depends interp vrange) = Some (interp +:+ ":any").
Proof.
  unfold interpreter_depends. destruct vrange as [[lo hi]|]; [|reflexivity].
  simpl. destruct (truthy hi), (truthy lo); reflexivity.
Qed.

Lemma head_app_Some {A} (l k : list A) x : head l = Some x → head (l ++ k) = Some x.
Proof. destruct l; [discriminate | auto]. Qed.

(** [search_shlibs_deps], the one method that updates the descriptor after
    it is built, leaves [depends] as it is. *)
Lemma search_shlibs_deps_keeps_depends shell_run set_iter self w :
  match search_shlibs_deps shell_run set_iter self w with
  | Some (self', _) => depends self' = depends self
  | None => True
  end.
Proof.
  unfold search_shlibs_deps, mbind, M_bind.
  destruct (parse_substvars self ∅ w) as [[shlibdeps w1]|]; [|done].
  match goal with |- context [(if ?b then _ else _) w1] => destruct b end.
  - destruct (shell _ _ _ w1) as [[out w2]|]; [|done].
    destruct (parse_substvars self shlibdeps w2) as [[shlibdeps' w3]|]; [|done].
    cbn [mret M_ret].
    match goal with |- context [(if ?b then _ else _) w3] => destruct b end; [|done].
    destruct (log _ _ _ w3) as [[[] w4]|]; [|done].
    destruct (for_each _ _ _ w4) as [[deps w5]|]; [|done].
    destruct (when _ _ w5) as [[[] w6]|]; done.
  - cbn [mret M_ret].
    match goal with |- context [(if ?b then _ else _) w1] => destruct b end; [|done].
    destruct (log _ _ _ w1) as [[[] w4]|]; [|done].
    destruct (for_each _ _ _ w4) as [[deps w5]|]; [|done].
    destruct (when _ _ w5) as [[[] w6]|]; done.
Qed.

(** C8: the descriptor [__init__] builds lists the dependency on the
    interpreter, [interpreter:any], first: it is the head after line 84, it
    stays the head when the bounds, the dependencies found and the
    dependencies of the context are appended, and [depends] is that last
    list.  [search_shlibs_deps], when it returns, returns a descriptor with
    the same head. *)
Theorem init_depends_interpreter_first :
  ∀ VERSION suggest_name search_python_deps ctx wheel extras,
    let '(self, _, _) := init VERSION suggest_name search_python_deps ctx wheel extras in
    let base := interpreter self +:+ ":any" in
    let bounds := interpreter_depends (interpreter self)
                    (version_range wheel (python_major ctx)) in
    let deps := (search_python_deps ctx wheel extras).1 in
    interpreter self = interpreter_of (python_major ctx) ∧
    head [base] = Some base ∧
    head bounds = Some base ∧
    head (bounds ++ deps) = Some base ∧
    head ((bounds ++ deps) ++ ctx_depends ctx) = Some base ∧
    depends self = (bounds ++ deps) ++ ctx_depends ctx ∧
    head (depends self) = Some base ∧
    ∀ shell_run set_iter w,
      match search_shlibs_deps shell_run set_iter self w with
      | Some (self', _) => head (depends self') = Some base
      | None => True
      end.
Proof.
  intros VERSION suggest_name search_python_deps ctx wheel extras.
  pose proof (search_shlibs_deps_keeps_depends) as Hkeep.
  unfold init.
  destruct (resolve_arch (arch_tag wheel)) as [a logs].
  destruct (search_python_deps ctx wheel extras) as [deps missing].
  cbn [interpreter depends fst].
  pose proof (interpreter_depends_head (interpreter_of (python_major ctx))
                (version_range wheel (python_major ctx))) as Hhd.
  split_and!; auto using head_app_Some.
  intros shell_run set_iter w.
  match goal with |- context [search_shlibs_deps _ _ ?self _] =>
    specialize (Hkeep shell_run set_iter self w) end.
  destruct (search_shlibs_deps _ _ _ w) as [[self' w']|]; [|done].
  rewrite Hkeep. cbn [depends]. auto using head_app_Some.
Qed.

(** ** [sorted] *)

Section sorted_facts.
Context {A : Type} (le : A → A → bool).

Lemma insert_sorted_perm x l : insert_sorted le x l ≡ₚ x :: l.
Proof.
  induction l as [|y l IH]; simpl; [done|].
  destruct (le x y); [done|]. rewrite IH. apply Permutation_swap.
Qed.

Lemma sorted_perm l : sorted le l ≡ₚ l.
Proof.
  induction l as [|x l IH]; simpl; [done|].
  by rewrite insert_sorted_perm, IH.
Qed.

Hypothesis le_total : ∀ x y, le x y ∨ le y x.

Lemma insert_sorted_Sorted x l : Sorted le l → Sorted le (insert_sorted le x l).
Proof.
  assert (Hflip : ∀ y, le x y = false → le y x).
  { intros y Hxy. destruct (le_total x y) as [Hc|Hc]; [|done].
    by rewrite Hxy in Hc. }
  induction 1 as [|y l Hl IH Hy]; simpl.
  - repeat constructor.
  - destruct (le x y) eqn:Hxy.
    + repeat constructor; [done..|]. by rewrite Hxy.
    + constructor; [done|].
      destruct Hy as [|z l' Hz]; simpl.
      * constructor. by apply Hflip.
      * destruct (le x z); constructor; [by apply Hflip | done].
Qed.

Lemma sorted_Sorted l : Sorted le (sorted le l).
Proof.
  induction l as [|x l IH]; simpl; [constructor|].
  by apply insert_sorted_Sorted.
Qed.
End sorted_facts.

Lemma len_le_total x y : len_le x y ∨ len_le y x.
Proof. unfold len_le. rewrite !Is_true_true, !Nat.leb_le. lia. Qed.

Global Instance len_le_trans : Transitive (λ a b, Is_true (len_le a b)).
Proof. intros x y z. unfold len_le. rewrite !Is_true_true, !Nat.leb_le. lia. Qed.

(** The head of a list sorted by length is one of its shortest elements. *)
Lemma head_sorted_len l p :
  head (sorted len_le l) = Some p →
  p ∈ l ∧ ∀ q, q ∈ l → String.length p ≤ String.length q.
Proof.
  intros Hhd.
  pose proof (sorted_perm len_le l) as Hperm.
  assert (Hs : StronglySorted (λ a b, Is_true (len_le a b)) (sorted len_le l)).
  { apply Sorted_StronglySorted; [apply _|]. apply sorted_Sorted, len_le_total. }
  destruct (sorted len_le l) as [|p' l'] eqn:Hl; [discriminate|].
  injection Hhd as ->.
  apply StronglySorted_inv in Hs as [_ Hall].
  split.
  - rewrite <- Hperm. by left.
  - intros q Hq. rewrite <- Hperm in Hq.
    apply elem_of_cons in Hq as [->|Hq]; [done|].
    rewrite Forall_forall in Hall. specialize (Hall q Hq).
    unfold len_le in Hall. by apply Is_true_true, Nat.leb_le in Hall.
Qed.

(** ** The choice of a provider *)

Lemma select_provider_fst lib packages :
  (select_provider lib packages).1 = head (sorted len_le (filter not_dbg packages)).
Proof.
  unfold select_provider, not_dbg.
  destruct (filter _ packages) as [|p l] eqn:Hf; [reflexivity|].
  cbn [length Nat.eqb]. by destruct (1 <? _)%nat.
Qed.

Lemma select_provider_shortest lib packages p :
  (select_provider lib packages).1 = Some p →
  p ∈ packages ∧ not_dbg p ∧
  ∀ q, q ∈ packages → not_dbg q → String.length p ≤ String.length q.
Proof.
  rewrite select_provider_fst. intros [Hin Hmin]%head_sorted_len.
  apply list_elem_of_filter in Hin as [Hp Hin]. split_and!; [done..|].
  intros q Hq Hdbg. apply Hmin, list_elem_of_filter. by split.
Qed.

Lemma select_provider_is_Some lib packages q :
  q ∈ packages → not_dbg q → is_Some (select_provider lib packages).1.
Proof.
  intros Hq Hdbg. rewrite select_provider_fst.
  assert (Hin : q ∈ sorted len_le (filter not_dbg packages)).
  { rewrite sorted_perm. apply list_elem_of_filter. by split. }
  destruct (sorted _ _); [by apply elem_of_nil in Hin | by eexists].
Qed.

(** C2: when [apt-file] names [libfoo-dev], [libfoo1] and [libfoo1-dbg] for
    a library, in whatever order the set hands them out, the debug package
    is filtered out first, the two that remain are sorted by length and
    [libfoo1] is picked over [libfoo-dev] and added to the dependencies.
    When no candidate remains after the filter, a warning is logged, nothing
    is added and the call returns: the next library is treated. *)
Theorem select_provider_libfoo :
  ∀ shell_run set_iter lib shlibdeps w out rc fs,
    shell_run ["apt-file"; "search"; lib] None (files w) = Some (out, rc, fs) →
    (candidates set_iter out ≡ₚ ["libfoo-dev"; "libfoo1"; "libfoo1-dbg"] →
     filter not_dbg (candidates set_iter out) ≡ₚ ["libfoo-dev"; "libfoo1"] ∧
     sorted len_le (filter not_dbg (candidates set_iter out)) = ["libfoo1"; "libfoo-dev"] ∧
     select_provider lib (candidates set_iter out) =
       (Some "libfoo1",
        [LogRecord WARNING MSG_SEVERAL
           [VStr lib; VList ["libfoo1"; "libfoo-dev"]; VStr "libfoo1"]]) ∧
     search_provider shell_run set_iter lib shlibdeps w =
       Some (shlibdeps ∪ {[ "libfoo1" ]},
             after_apt_file w lib fs
               [LogRecord WARNING MSG_SEVERAL
                  [VStr lib; VList ["libfoo1"; "libfoo-dev"]; VStr "libfoo1"]])) ∧
    (filter not_dbg (candidates set_iter out) = [] →
     select_provider lib (candidates set_iter out) =
       (None, [LogRecord WARNING MSG_NO_PROVIDER [VStr lib]]) ∧
     search_provider shell_run set_iter lib shlibdeps w =
       Some (shlibdeps,
             after_apt_file w lib fs [LogRecord WARNING MSG_NO_PROVIDER [VStr lib]])).
Proof.
  intros shell_run set_iter lib shlibdeps w out rc fs Hshell.
  assert (Hrun : ∀ picked logs,
             select_provider lib (candidates set_iter out) = (picked, logs) →
             search_provider shell_run set_iter lib shlibdeps w =
               Some (match picked with Some p => shlibdeps ∪ {[ p ]} | None => shlibdeps end,
                     after_apt_file w lib fs logs)).
  { intros picked logs Hsel.
    unfold search_provider, mbind, M_bind, shell. rewrite Hshell. cbn [fst files].
    fold (candidates set_iter out). by rewrite Hsel. }
  split.
  - intros Hperm.
    assert (Hcases : filter not_dbg (candidates set_iter out) ≡ₚ ["libfoo-dev"; "libfoo1"] ∧
              sorted len_le (filter not_dbg (candidates set_iter out)) = ["libfoo1"; "libfoo-dev"]).
    { symmetry in Hperm. apply permutations_Permutation in Hperm.
      cbv [permutations interleave fmap list_fmap mbind list_bind app] in Hperm.
      repeat (apply elem_of_cons in Hperm as [->|Hperm];
              [split; vm_compute; first [reflexivity | apply Permutation_swap]|]).
      by apply elem_of_nil in Hperm. }
    destruct Hcases as [Hfilter Hsorted].
    assert (Hsel : select_provider lib (candidates set_iter out) =
                   (Some "libfoo1",
                    [LogRecord WARNING MSG_SEVERAL
                       [VStr lib; VList ["libfoo1"; "libfoo-dev"]; VStr "libfoo1"]])).
    { unfold select_provider. fold not_dbg. rewrite Hsorted.
      pose proof (Permutation_length Hfilter) as Hlen.
      destruct (filter not_dbg (candidates set_iter out)) as [|p1 [|p2 [|p3 l]]];
        try discriminate Hlen.
      reflexivity. }
    split_and!; [done..|]. by rewrite (Hrun _ _ Hsel).
  - intros Hnone.
    assert (Hsel : select_provider lib (candidates set_iter out) =
                   (None, [LogRecord WARNING MSG_NO_PROVIDER [VStr lib]])).
    { unfold select_provider. fold not_dbg. by rewrite Hnone. }
    split; [done|]. by rewrite (Hrun _ _ Hsel).
Qed.

(** C3, as stated: two runs on the same set of candidates pick the same
    package.  The set of [liba1] and [libb1], two names of length five,
    refutes it: the pick is whichever name the set hands out first, and two
    runs of [search_provider] that iterate the set in opposite orders add
    different packages. *)
Lemma select_provider_tie_follows_order :
  NoDup ["liba1"; "libb1"] ∧
  ["liba1"; "libb1"] ≡ₚ ["libb1"; "liba1"] ∧
  (list_to_set ["liba1"; "libb1"] : gset string) = list_to_set ["libb1"; "liba1"] ∧
  (select_provider "libx.so" ["liba1"; "libb1"]).1 = Some "liba1" ∧
  (select_provider "libx.so" ["libb1"; "liba1"]).1 = Some "libb1" ∧
  (∀ X : gset string, (reverse ∘ elements) X ≡ₚ elements X) ∧
  outcome (search_provider_run (shell_says APT_TIE) elements "libx.so" empty_world)
    = Some (["liba1"], [["apt-file"; "search"; "libx.so"]]) ∧
  outcome (search_provider_run (shell_says APT_TIE) (reverse ∘ elements) "libx.so" empty_world)
    = Some (["libb1"], [["apt-file"; "search"; "libx.so"]]).
Proof.
  split_and!.
  - apply NoDup_cons. split; [|apply NoDup_singleton].
    by intros [=]%list_elem_of_singleton.
  - apply Permutation_swap.
  - simpl. rewrite !(right_id_L ∅ (∪)). apply (comm_L (∪)).
  - vm_compute. reflexivity.
  - vm_compute. reflexivity.
  - intros X. apply reverse_Permutation.
  - vm_compute. reflexivity.
  - vm_compute. reflexivity.
Qed.

(** The head of a list sorted by length is the first of its shortest
    elements: the sort is stable. *)
Lemma head_sorted_first l p :
  head (sorted len_le l) = Some p →
  ∃ before after,
    l = before ++ p :: after ∧
    (∀ q, q ∈ before → String.length p < String.length q) ∧
    (∀ q, q ∈ after → String.length p ≤ String.length q).
Proof.
  revert p. induction l as [|x l IH]; intros p; [discriminate|].
  cbn [sorted foldr]. fold (sorted len_le l).
  destruct (sorted len_le l) as [|y t] eqn:Hs.
  - assert (l = []) as ->.
    { apply Permutation_nil_r. by rewrite <- (sorted_perm len_le l), Hs. }
    cbn. intros [= <-]. exists [], []. split_and!; [done|..]; by intros q ?%elem_of_nil.
  - destruct (IH y eq_refl) as (before & after & -> & Hbefore & Hafter).
    cbn [insert_sorted]. unfold len_le at 1.
    destruct (Nat.leb_spec (String.length x) (String.length y)) as [Hle|Hlt].
    + cbn. intros [= <-]. exists [], (before ++ y :: after).
      split_and!; [done|by intros q ?%elem_of_nil|].
      intros q [Hq|[->|Hq]%elem_of_cons]%elem_of_app.
      * specialize (Hbefore q Hq). lia.
      * done.
      * specialize (Hafter q Hq). lia.
    + cbn. intros [= <-]. exists (x :: before), after.
      split_and!; [done| |done].
      intros q [->|Hq]%elem_of_cons; [done|]. by apply Hbefore.
Qed.

Lemma filter_eq_app_cons (P : string → Prop) `{!∀ x, Decision (P x)} l before p after :
  filter P l = before ++ p :: after →
  ∃ before' after',
    l = before' ++ p :: after' ∧ P p ∧
    filter P before' = before ∧ filter P after' = after.
Proof.
  revert before. induction l as [|x l IH]; intros before Hf.
  - by destruct before.
  - destruct (decide (P x)) as [Hx|Hx].
    + rewrite filter_cons_True in Hf by done.
      destruct before as [|b before]; cbn in Hf.
      * injection Hf as -> Hf. exists [], l. by rewrite filter_nil.
      * injection Hf as -> Hf.
        destruct (IH _ Hf) as (before' & after' & -> & Hp & Hb & Ha).
        exists (b :: before'), after'. split_and!; [done..| |done].
        by rewrite filter_cons_True, Hb.
    + rewrite filter_cons_False in Hf by done.
      destruct (IH _ Hf) as (before' & after' & -> & Hp & Hb & Ha).
      exists (x :: before'), after'. split_and!; [done..| |done].
      by rewrite filter_cons_False.
Qed.

Lemma select_provider_first lib packages p :
  (select_provider lib packages).1 = Some p → first_shortest p packages.
Proof.
  rewrite select_provider_fst.
  intros (before & after & Hf & Hbefore & Hafter)%head_sorted_first.
  apply filter_eq_app_cons in Hf as (before' & after' & -> & Hp & <- & <-).
  exists before', after'. split_and!; [done..| |].
  - intros q Hq Hdbg. apply Hbefore, list_elem_of_filter. by split.
  - intros q Hq Hdbg. apply Hafter, list_elem_of_filter. by split.
Qed.

(** C3, amended: two runs on the same set of candidates either both pick
    nothing, which they do only when every candidate is a debug package, or
    both pick a candidate that is not a debug package and has the shortest
    name among those, so the two picks have the same length; they pick the
    same package whenever one candidate only has that length.  Among several
    names of that length each run picks the one it was handed first. *)
Theorem select_provider_same_length :
  ∀ lib run1 run2,
    run1 ≡ₚ run2 →
    match (select_provider lib run1).1, (select_provider lib run2).1 with
    | Some p1, Some p2 =>
        (p1 ∈ run1 ∧ not_dbg p1 ∧
         ∀ q, q ∈ run1 → not_dbg q → String.length p1 ≤ String.length q) ∧
        (p2 ∈ run1 ∧ not_dbg p2 ∧
         ∀ q, q ∈ run1 → not_dbg q → String.length p2 ≤ String.length q) ∧
        first_shortest p1 run1 ∧ first_shortest p2 run2 ∧
        String.length p1 = String.length p2 ∧
        ((∀ q, q ∈ run1 → not_dbg q → String.length q = String.length p1 → q = p1) →
         p1 = p2)
    | None, None => ∀ q, q ∈ run1 → ¬ not_dbg q
    | _, _ => False
    end.
Proof.
  intros lib run1 run2 Hperm.
  destruct (select_provider lib run1).1 as [p1|] eqn:H1;
    destruct (select_provider lib run2).1 as [p2|] eqn:H2.
  - pose proof (select_provider_first _ _ _ H1) as Hfirst1.
    pose proof (select_provider_first _ _ _ H2) as Hfirst2.
    apply select_provider_shortest in H1 as (Hin1 & Hd1 & Hmin1).
    apply select_provider_shortest in H2 as (Hin2 & Hd2 & Hmin2).
    rewrite <- Hperm in Hin2.
    assert (Hlen : String.length p1 = String.length p2).
    { apply Nat.le_antisymm; [by apply Hmin1 | apply Hmin2; [by rewrite <- Hperm | done]]. }
    split_and!; [done..| |done|done|done|].
    + intros q Hq Hdbg. apply Hmin2; [by rewrite <- Hperm | done].
    + intros Huniq. symmetry. by apply Huniq.
  - apply select_provider_shortest in H1 as (Hin1 & Hd1 & _).
    rewrite Hperm in Hin1.
    destruct (select_provider_is_Some lib run2 p1 Hin1 Hd1) as [p Hp]. congruence.
  - apply select_provider_shortest in H2 as (Hin2 & Hd2 & _).
    rewrite <- Hperm in Hin2.
    destruct (select_provider_is_Some lib run1 p2 Hin2 Hd2) as [p Hp]. congruence.
  - intros q Hq Hdbg.
    destruct (select_provider_is_Some lib run1 q Hq Hdbg) as [p Hp]. congruence.
Qed.

(** ** The copyright statements *)

Lemma str_le_total x y : str_le x y ∨ str_le y x.
Proof. apply (total String.le). Qed.

Lemma sorted_str_le_Sorted l : Sorted String.le (sorted str_le l).
Proof. apply (sorted_Sorted str_le str_le_total). Qed.

(** Sorting by the order of [str] forgets the order of its argument. *)
Lemma sorted_str_le_perm l1 l2 : l1 ≡ₚ l2 → sorted str_le l1 = sorted str_le l2.
Proof.
  intros Hperm. apply (Sorted_unique String.le); [apply sorted_str_le_Sorted..|].
  by rewrite !sorted_perm.
Qed.

Lemma elem_of_foldl_union (f : string → list string) l (X : gset string) x :
  x ∈ foldl (λ (acc : gset string) c, acc ∪ list_to_set (f c)) X l ↔
  x ∈ X ∨ ∃ c, c ∈ l ∧ x ∈ f c.
Proof.
  revert X. induction l as [|c l IH]; intros X; simpl.
  - split; [auto|]. intros [?|(c & Hc & _)]; [done|]. by apply elem_of_nil in Hc.
  - rewrite IH, elem_of_union, elem_of_list_to_set. split.
    + intros [[?|?]|(c' & ? & ?)]; [by left | right; exists c | right; exists c'];
        split; try done; [by left | by right].
    + intros [?|(c' & [->|?]%elem_of_cons & ?)]; [by left; left | by left; right |].
      right. by exists c'.
Qed.

Lemma elem_of_found_in contents x :
  x ∈ found_in contents ↔ ∃ c, c ∈ contents ∧ x ∈ findall COPYRIGHT_RE c.
Proof.
  unfold found_in. rewrite elem_of_foldl_union. split; [|by right].
  intros [Hx|?]; [|done]. by apply elem_of_empty in Hx.
Qed.

(** C7: the statements gathered from license texts do not depend on the
    order of the texts, nor on the order in which the set of statements is
    iterated, nor on a text being read twice; the result has no duplicate,
    is in ascending order, and holds exactly the statements captured in one
    of the texts. *)
Theorem gather_copyrights_canonical :
  ∀ iter1 iter2 texts1 texts2,
    (∀ X, iter1 X ≡ₚ elements X) →
    (∀ X, iter2 X ≡ₚ elements X) →
    texts1 ≡ₚ texts2 →
    gather_copyrights iter1 texts1 = gather_copyrights iter2 texts2 ∧
    gather_copyrights iter1 (texts1 ++ texts1) = gather_copyrights iter1 texts1 ∧
    NoDup (gather_copyrights iter1 texts1) ∧
    Sorted String.le (gather_copyrights iter1 texts1) ∧
    ∀ x, x ∈ gather_copyrights iter1 texts1 ↔
         ∃ text, text ∈ texts1 ∧ x ∈ findall COPYRIGHT_RE text.
Proof.
  intros iter1 iter2 texts1 texts2 Hiter1 Hiter2 Hperm.
  unfold gather_copyrights. fold (found_in texts1) (found_in texts2)
    (found_in (texts1 ++ texts1)).
  assert (Hset : ∀ l1 l2 : list string,
             (∀ t, t ∈ l1 ↔ t ∈ l2) → found_in l1 = found_in l2).
  { intros l1 l2 Hl. apply set_eq. intros x. rewrite !elem_of_found_in.
    split; intros (c & Hc & Hx); exists c; split; try done; by apply Hl. }
  split_and!.
  - apply sorted_str_le_perm.
    rewrite Hiter1, Hiter2, (Hset texts1 texts2); [done|].
    intros t. by rewrite Hperm.
  - apply sorted_str_le_perm. rewrite (Hset (texts1 ++ texts1) texts1); [done|].
    intros t. rewrite elem_of_app. tauto.
  - rewrite sorted_perm, Hiter1. apply NoDup_elements.
  - apply sorted_str_le_Sorted.
  - intros x. rewrite sorted_perm, Hiter1, elem_of_elements. apply elem_of_found_in.
Qed.

(** ** Native dependencies: the cached result *)

Lemma parse_substvars_file self shlibdeps w txt :
  files w !! path_join (debian self) "substvars" = Some txt →
  parse_substvars self shlibdeps w =
    Some (shlibdeps ∪ list_to_set (parsed_substvars txt), w).
Proof.
  intros Hfile. unfold parse_substvars, mbind, M_bind, is_file, read_text.
  rewrite Hfile. rewrite bool_decide_eq_true_2 by eauto. by rewrite Hfile.
Qed.

Lemma parse_substvars_no_file self shlibdeps w :
  files w !! path_join (debian self) "substvars" = None →
  parse_substvars self shlibdeps w = Some (shlibdeps, w).
Proof.
  intros Hfile. unfold parse_substvars, mbind, M_bind, is_file.
  rewrite Hfile. rewrite bool_decide_eq_false_2; [done|]. by intros [? [=]].
Qed.

(** C1: when [debian/substvars] is a file and the pattern finds at least one
    name in it, [search_shlibs_deps] returns in the world it started in, so
    neither [dpkg-shlibdeps] nor [apt-file] was run, and what it adds to
    [build_deps] is exactly the names parsed from the file, each followed by
    [:] and the architecture. *)
Theorem search_shlibs_deps_cache_hit :
  ∀ shell_run set_iter self w txt,
    files w !! path_join (debian self) "substvars" = Some txt →
    parsed_substvars txt ≠ [] →
    search_shlibs_deps shell_run set_iter self w =
      Some (set_build_deps self
              (build_deps self ∪ tagged self (list_to_set (parsed_substvars txt))), w) ∧
    ∀ x, x ∈ tagged self (list_to_set (parsed_substvars txt)) ↔
         ∃ p, p ∈ parsed_substvars txt ∧ x = p +:+ ":" +:+ arch self.
Proof.
  intros shell_run set_iter self w txt Hfile Hparsed. split.
  - unfold search_shlibs_deps, mbind, M_bind.
    rewrite (parse_substvars_file _ _ _ _ Hfile), (left_id_L ∅ (∪)).
    assert (Hne : (list_to_set (parsed_substvars txt) : gset string) ≠ ∅).
    { destruct (parsed_substvars txt) as [|p l]; [done|]. simpl. set_solver. }
    rewrite (bool_decide_eq_false_2 (_ = ∅)) by done.
    rewrite andb_false_r. cbn [mret M_ret].
    rewrite (bool_decide_eq_false_2 (∅ ≠ ∅)) by (intros H; by apply H).
    reflexivity.
  - intros x. unfold tagged. rewrite elem_of_map. setoid_rewrite elem_of_list_to_set.
    split; intros (p & ? & ?); exists p; done.
Qed.

(** ** Native dependencies: the libraries the analyzer misses *)

Lemma drop_str_app pre s : drop_str (String.length pre) (pre +:+ s) = s.
Proof. induction pre as [|a pre IH]; [done|]. exact IH. Qed.

(** The scan of the analyzer's output never sees its first eight characters. *)
Lemma findall_from_MULTILINE r pre s :
  String.length pre = MULTILINE → findall_from r (pre +:+ s) MULTILINE = findall r s.
Proof. intros <-. unfold findall_from. by rewrite drop_str_app. Qed.

(** C4, on the code: line 285 hands [re.MULTILINE], the integer 8, to
    [findall] as the index where the scan starts.  A message at the very
    start of the output matches the pattern and is not captured: no library
    is reported missing and [apt-file] is not run.  The same message after
    the prefix [dpkg-shlibdeps] prints is captured. *)
Theorem missing_library_at_start_not_captured :
  findall DPKG_SHLIBS_RE MESSAGE = ["libfoo.so.1"] ∧
  findall_from DPKG_SHLIBS_RE MESSAGE MULTILINE = [] ∧
  outcome (search_shlibs_deps (analyzer_says MESSAGE) elements sample_package empty_world)
    = Some (["debhelper"], [DPKG_CALL]) ∧
  findall_from DPKG_SHLIBS_RE ("dpkg-shlibdeps: error: cannot " +:+ MESSAGE) MULTILINE
    = ["libfoo.so.1"] ∧
  outcome (search_shlibs_deps (analyzer_says ("dpkg-shlibdeps: error: cannot " +:+ MESSAGE))
             elements sample_package empty_world)
    = Some (["libfoo1:amd64"; "debhelper"], [DPKG_CALL; ["apt-file"; "search"; "libfoo.so.1"]]).
Proof. split_and!; vm_compute; reflexivity. Qed.

(** ** The matcher *)

Lemma str_app_cons a (s t : string) : String a s +:+ t = String a (s +:+ t).
Proof. reflexivity. Qed.

Lemma str_app_assoc (s1 s2 s3 : string) : (s1 +:+ s2) +:+ s3 = s1 +:+ (s2 +:+ s3).
Proof. induction s1 as [|a s1 IH]; [done|]. by rewrite !str_app_cons, IH. Qed.

Lemma str_length_app (s1 s2 : string) :
  String.length (s1 +:+ s2) = String.length s1 + String.length s2.
Proof. induction s1 as [|a s1 IH]; [done|]. rewrite str_app_cons. simpl. by rewrite IH. Qed.

Lemma splits_then s h1 h2 : splits s h1 → splits (rest h1) h2 → splits s (hit_then h1 h2).
Proof.
  unfold splits. intros -> Hr. simpl. rewrite str_app_assoc. by rewrite <- Hr.
Qed.

Lemma star_go_splits step fuel s h :
  (∀ s' h', h' ∈ step s' → splits s' h') →
  h ∈ star_go step fuel s → splits s h.
Proof.
  intros Hstep. revert s h. induction fuel as [|fuel IH]; intros s h; simpl.
  - by intros ->%list_elem_of_singleton.
  - rewrite elem_of_app, list_elem_of_bind, list_elem_of_singleton.
    intros [(h1 & Hh & Hh1)| ->]; [|done].
    destruct (taken h1) eqn:Ht; [by apply elem_of_nil in Hh|].
    apply list_elem_of_bind in Hh as (h2 & ->%list_elem_of_singleton & Hh2).
    apply splits_then; eauto.
Qed.

Lemma matches_splits r s h : h ∈ matches r s → splits s h.
Proof.
  revert s h. induction r as [|p|r1 IH1 r2 IH2|r1 IH1 r2 IH2|r IH|r IH|r IH|r IH];
    intros s h; simpl.
  - by intros ->%list_elem_of_singleton.
  - destruct s as [|a s]; [by intros ?%elem_of_nil|].
    destruct (p a); [by intros ->%list_elem_of_singleton | by intros ?%elem_of_nil].
  - intros (h1 & (h2 & ->%list_elem_of_singleton & Hh2)%list_elem_of_bind & Hh1)%list_elem_of_bind.
    apply splits_then; eauto.
  - rewrite elem_of_app. intros [?|?]; eauto.
  - apply star_go_splits. eauto.
  - intros (h1 & ->%list_elem_of_singleton & Hh1)%list_elem_of_bind.
    apply IH in Hh1. done.
  - destruct (matches r s); [by intros ?%elem_of_nil | by intros ->%list_elem_of_singleton].
  - destruct (matches r s); [by intros ->%list_elem_of_singleton | by intros ?%elem_of_nil].
Qed.

Lemma search_length r s h :
  search r s = Some h → String.length (taken h) + String.length (rest h) ≤ String.length s.
Proof.
  induction s as [|a s IH]; simpl.
  - destruct (matches r "") as [|h' l] eqn:Hm; [done|]. intros [= ->].
    assert (Hs : splits "" h) by (apply (matches_splits r); rewrite Hm; by left).
    unfold splits in Hs. apply (f_equal String.length) in Hs.
    rewrite str_length_app in Hs. simpl in Hs. lia.
  - destruct (matches r (String a s)) as [|h' l] eqn:Hm.
    + intros Hs. apply IH in Hs. lia.
    + intros [= ->].
      assert (Hs : splits (String a s) h) by (apply (matches_splits r); rewrite Hm; by left).
      unfold splits in Hs. apply (f_equal String.length) in Hs.
      rewrite str_length_app in Hs. simpl in Hs. lia.
Qed.

(** The scan of [findall] has all the fuel it needs. *)
Lemma findall_go_fuel r n m s :
  String.length s < n → String.length s < m → findall_go r n s = findall_go r m s.
Proof.
  revert m s. induction n as [|n IH]; intros m s Hn Hm; [lia|].
  destruct m as [|m]; [lia|]. simpl.
  destruct (search r s) as [h|] eqn:Hs; [|done]. f_equal.
  apply search_length in Hs.
  destruct (taken h) as [|a t] eqn:Ht.
  - destruct (rest h) as [|b s'] eqn:Hr; [done|]. simpl in Hs. apply IH; lia.
  - simpl in Hs. apply IH; lia.
Qed.

Lemma findall_go_S r n s :
  findall_go r (S n) s =
  match search r s with
  | None => []
  | Some h =>
      default "" (group1 h) ::
      match taken h, rest h with
      | EmptyString, EmptyString => []
      | EmptyString, String _ s' => findall_go r n s'
      | _, s' => findall_go r n s'
      end
  end.
Proof. reflexivity. Qed.

Lemma findall_step r s h :
  search r s = Some h → taken h ≠ "" →
  findall r s = default "" (group1 h) :: findall r (rest h).
Proof.
  intros Hs Ht. unfold findall. rewrite (findall_go_S r (String.length s) s), Hs. f_equal.
  pose proof (search_length _ _ _ Hs) as Hlen.
  destruct (taken h) as [|a t] eqn:Htk; [done|]. simpl in Hlen.
  apply findall_go_fuel; lia.
Qed.

Lemma matches_Seq r1 r2 s :
  matches (Seq r1 r2) s = h1 ← matches r1 s; h2 ← matches r2 (rest h1); [hit_then h1 h2].
Proof. reflexivity. Qed.

Lemma matches_Group r s :
  matches (Group r) s = h ← matches r s; [Hit (taken h) (Some (taken h)) (rest h)].
Proof. reflexivity. Qed.

Lemma year_and_text_needs_digit s :
  starts_with is_digit s = false → matches YEAR_AND_TEXT s = [].
Proof.
  intros Hs. unfold YEAR_AND_TEXT, Rep_2_4, cat.
  rewrite !matches_Seq.
  assert (H : matches (Chr is_digit) s = []).
  { destruct s as [|a s]; [done|]. simpl in *. by rewrite Hs. }
  rewrite H. reflexivity.
Qed.

Lemma statement_needs_digit s :
  starts_with is_digit s = false → matches (Group (cat [LETTER_AHEAD; YEAR_AND_TEXT])) s = [].
Proof.
  intros Hs. unfold cat. rewrite matches_Group, matches_Seq.
  unfold LETTER_AHEAD at 1. cbn [matches].
  destruct (matches (cat _) s); [done|].
  rewrite bind_cons. cbn [rest hit0]. rewrite year_and_text_needs_digit by done. done.
Qed.

Lemma star_go_last step fuel s : hit0 s ∈ star_go step fuel s.
Proof. destruct fuel; simpl; [by left|]. apply elem_of_app. right. by left. Qed.

Lemma star_chr_skips p pre s fuel :
  all_chars p pre = true → String.length pre ≤ fuel →
  ∃ h, h ∈ star_go (matches (Chr p)) fuel (pre +:+ s) ∧ rest h = s.
Proof.
  revert fuel. induction pre as [|a pre IH]; intros fuel Hall Hfuel.
  - exists (hit0 s). split; [apply star_go_last | done].
  - simpl in Hall. apply andb_true_iff in Hall as [Ha Hall].
    destruct fuel as [|fuel]; [simpl in Hfuel; lia|].
    destruct (IH fuel Hall) as (h2 & Hh2 & Hrest); [simpl in Hfuel; lia|].
    exists (hit_then (Hit (String a "") None (pre +:+ s)) h2). split; [|done].
    rewrite str_app_cons. cbn [star_go matches]. rewrite Ha.
    apply elem_of_app. left. rewrite bind_cons. apply elem_of_app. left.
    cbn [taken rest]. apply list_elem_of_bind. exists h2. split; [by left | done].
Qed.

Lemma letter_ahead_ok pre c s :
  all_chars is_dot pre = true → is_az_i c = true →
  matches LETTER_AHEAD (pre +:+ String c s) = [hit0 (pre +:+ String c s)].
Proof.
  intros Hpre Hc. unfold LETTER_AHEAD, cat. cbn [matches].
  destruct (star_chr_skips is_dot pre (String c s)
              (String.length (pre +:+ String c s)) Hpre) as (h & Hh & Hrest).
  { rewrite str_length_app. lia. }
  destruct (_ ≫= _) as [|h' l] eqn:Hnil; [|done].
  exfalso. eapply elem_of_nil. rewrite <- Hnil.
  apply list_elem_of_bind. exists h. split; [|done].
  rewrite Hrest. cbn [matches]. rewrite Hc. rewrite bind_cons. by left.
Qed.

Lemma search_skip r a s : matches r (String a s) = [] → search r (String a s) = search r s.
Proof. intros H. simpl. by rewrite H. Qed.

Lemma search_here r s h l : matches r s = h :: l → search r s = Some h.
Proof. intros H. destruct s; simpl; by rewrite H. Qed.

Lemma search_sentence post :
  search COPYRIGHT_RE (SENTENCE +:+ post) =
  Some (Hit " (c) 2020 Jane Doe, " (Some "2020 Jane Doe, ") ("All rights reserved." +:+ post)).
Proof.
  unfold SENTENCE. cbv [String.append].
  rewrite search_skip.
  2:{ unfold COPYRIGHT_RE, cat. rewrite !matches_Seq.
      run_matches COPYRIGHT_MARKER. rewrite bind_cons. cbn [rest].
      rewrite matches_Seq. run_matches COPYRIGHT_SEP.
      rewrite !bind_cons. cbn [rest].
      rewrite !(statement_needs_digit) by reflexivity. reflexivity. }
  do 8 (rewrite search_skip by (vm_compute; reflexivity)).
  eapply search_here. unfold COPYRIGHT_RE, cat. rewrite matches_Seq.
  run_matches COPYRIGHT_MARKER. rewrite bind_cons. cbn [rest].
  rewrite matches_Seq. run_matches COPYRIGHT_SEP. rewrite bind_cons. cbn [rest].
  rewrite matches_Group, matches_Seq.
  pose proof (letter_ahead_ok "2020 " "J" ("ane Doe, All rights reserved." +:+ post)
                eq_refl eq_refl) as Hahead.
  cbv [String.append] in Hahead. rewrite Hahead. clear Hahead.
  rewrite bind_cons. cbn [rest hit0].
  run_matches YEAR_AND_TEXT.
  cbv [hit_then hit0 taken rest group1 String.append app mbind list_bind].
  reflexivity.
Qed.

(** ** The copyright statement of a license *)

(** C6, as stated: from a text that contains the sentence the extractor
    captures [2020 Jane Doe].  From the sentence alone it captures the
    statement with the comma and the space that follow it; after an earlier
    statement on the same line it captures neither, the earlier statement
    runs on through the sentence. *)
Lemma copyright_statement_not_trimmed :
  findall COPYRIGHT_RE SENTENCE = ["2020 Jane Doe, "] ∧
  gather_copyrights elements [SENTENCE] = ["2020 Jane Doe, "] ∧
  ("2020 Jane Doe" ∉ gather_copyrights elements [SENTENCE]) ∧
  gather_copyrights elements ["Copyright 1999 Foo. " +:+ SENTENCE]
    = ["1999 Foo. Copyright (c) 2020 Jane Doe, "].
Proof.
  assert (H : gather_copyrights elements [SENTENCE] = ["2020 Jane Doe, "])
    by (vm_compute; reflexivity).
  split_and!; [vm_compute; reflexivity | done | | vm_compute; reflexivity].
  rewrite H. by intros [=]%list_elem_of_singleton.
Qed.

Lemma search_skip_prefix r pre s :
  (∀ k, k < String.length pre → matches r (drop_str k (pre +:+ s)) = []) →
  search r (pre +:+ s) = search r s.
Proof.
  induction pre as [|a pre IH]; intros Hnone; [done|].
  rewrite str_app_cons, search_skip.
  - apply IH. intros k Hk. apply (Hnone (S k)). simpl. lia.
  - apply (Hnone 0). simpl. lia.
Qed.

Lemma search_search_at r s : search r s = snd <$> search_at r s.
Proof.
  induction s as [|a s IH]; cbn [search search_at].
  - by destruct (matches r "").
  - destruct (matches r (String a s)); [|done].
    rewrite IH. by destruct (search_at r s) as [[k h]|].
Qed.

Lemma search_at_Some r s k h :
  search_at r s = Some (k, h) →
  k ≤ String.length s ∧ (∃ l, matches r (drop_str k s) = h :: l) ∧
  ∀ j, j < k → matches r (drop_str j s) = [].
Proof.
  revert k. induction s as [|a s IH]; intros k; cbn [search_at].
  - destruct (matches r "") as [|h' l] eqn:Hm; [done|]. intros [= <- <-].
    split_and!; [done|by exists l|lia].
  - destruct (matches r (String a s)) as [|h' l] eqn:Hm.
    + destruct (search_at r s) as [[k' h'']|]; [|done]. cbn. intros [= <- <-].
      destruct (IH k' eq_refl) as (Hk & Hl & Hnone).
      split_and!; [cbn; lia|done|].
      intros [|j] Hj; [done|]. apply Hnone. lia.
    + intros [= <- <-]. split_and!; [lia|by exists l|lia].
Qed.

Lemma search_at_None r s j :
  search_at r s = None → j ≤ String.length s → matches r (drop_str j s) = [].
Proof.
  revert j. induction s as [|a s IH]; intros j; cbn [search_at].
  - destruct (matches r "") eqn:Hm; [|done]. intros _ Hj. by destruct j.
  - destruct (matches r (String a s)) eqn:Hm; [|done].
    destruct (search_at r s) as [[k h]|] eqn:Hs; [done|]. intros _ Hj.
    destruct j as [|j]; [done|]. apply IH; [done|]. cbn in Hj. lia.
Qed.

(** [findall] gives what the matches of [finditer] capture. *)
Lemma findall_go_finditer_go r fuel pos s :
  findall_go r fuel s = captured <$> finditer_go r fuel pos s.
Proof.
  revert pos s. induction fuel as [|fuel IH]; intros pos s; [done|].
  cbn [findall_go finditer_go]. rewrite search_search_at.
  destruct (search_at r s) as [[k h]|]; [|done]. cbn [fmap option_fmap option_map snd].
  rewrite fmap_cons. unfold captured at 1. cbn [snd]. f_equal.
  destruct (taken h) as [|a t]; [destruct (rest h); [done|]|]; apply IH.
Qed.

Lemma drop_str_app_le k pre s :
  k ≤ String.length pre → drop_str k (pre +:+ s) = drop_str k pre +:+ s.
Proof.
  revert k. induction pre as [|a pre IH]; intros [|k] Hk; try done; [cbn in Hk; lia|].
  rewrite str_app_cons. cbn [drop_str]. apply IH. cbn in Hk. lia.
Qed.

Lemma drop_str_length k s : String.length (drop_str k s) = String.length s - k.
Proof.
  revert k. induction s as [|a s IH]; intros [|k]; try done. cbn [drop_str String.length].
  by rewrite IH.
Qed.

Lemma drop_str_drop_str j k s : drop_str j (drop_str k s) = drop_str (k + j) s.
Proof.
  revert k. induction s as [|a s IH]; intros [|k]; try done.
  - by destruct j.
  - cbn [drop_str Nat.add]. apply IH.
Qed.

(** Two ways of cutting one text: the shorter first part starts the longer. *)
Lemma str_app_eq_split (a b c d : string) :
  a +:+ b = c +:+ d → String.length c ≤ String.length a →
  ∃ e, a = c +:+ e ∧ d = e +:+ b.
Proof.
  revert a. induction c as [|x c IH]; intros a Heq Hlen.
  - exists a. by split.
  - destruct a as [|y a]; [cbn in Hlen; lia|].
    rewrite !str_app_cons in Heq. injection Heq as -> Heq.
    destruct (IH a Heq) as (e & -> & ->); [cbn in Hlen; lia|].
    exists e. by split.
Qed.

Lemma findall_go_skip_prefix r fuel pre s :
  (∀ k, k < String.length pre → matches r (drop_str k (pre +:+ s)) = []) →
  findall_go r fuel (pre +:+ s) = findall_go r fuel s.
Proof.
  intros Hnone. destruct fuel as [|fuel]; [done|].
  by rewrite !findall_go_S, (search_skip_prefix _ _ _ Hnone).
Qed.

(** The scan over a text [pre +:+ s] in which [s] starts with a match and
    every match found before [s] ends before [s]: it comes to [s] and goes
    on as the scan of [s] does. *)
Lemma findall_go_over_prefix r n :
  ∀ pre s pos fuel,
    String.length pre ≤ n →
    String.length (pre +:+ s) < fuel →
    matches r s ≠ [] →
    (∀ k h, (k, h) ∈ finditer_go r fuel pos (pre +:+ s) →
            k < pos + String.length pre →
            k + String.length (taken h) ≤ pos + String.length pre) →
    ∃ earlier,
      findall_go r fuel (pre +:+ s) = earlier ++ findall_go r fuel s ∧
      ((∀ k, k < String.length pre → matches r (drop_str k (pre +:+ s)) = []) →
       earlier = []).
Proof.
  induction n as [|n IH]; intros pre s pos fuel Hn Hfuel Hs Hends.
  { destruct pre; [|cbn in Hn; lia]. by exists []. }
  destruct (search_at r (pre +:+ s)) as [[k h]|] eqn:Hat; last first.
  { exfalso. apply Hs. rewrite <- (drop_str_app pre s).
    apply (search_at_None _ _ _ Hat). rewrite str_length_app. lia. }
  destruct (search_at_Some _ _ _ _ Hat) as (_ & [l Hm] & Hnone).
  destruct (decide (k < String.length pre)) as [Hk|Hk]; last first.
  { exists []. split; [|done]. apply findall_go_skip_prefix.
    intros j Hj. apply Hnone. lia. }
  destruct fuel as [|fuel]; [lia|].
  assert (Hin : (pos + k, h) ∈ finditer_go r (S fuel) pos (pre +:+ s)).
  { cbn [finditer_go]. rewrite Hat. by left. }
  pose proof (Hends _ _ Hin ltac:(lia)) as Hend.
  assert (Hsplit : splits (drop_str k (pre +:+ s)) h).
  { apply (matches_splits r). rewrite Hm. by left. }
  unfold splits in Hsplit. rewrite drop_str_app_le in Hsplit by lia.
  destruct (str_app_eq_split _ _ _ _ Hsplit) as (e & He & Hrest).
  { rewrite drop_str_length. lia. }
  assert (Hlen : String.length pre = k + String.length (taken h) + String.length e).
  { apply (f_equal String.length) in He.
    rewrite drop_str_length, str_length_app in He. lia. }
  assert (Hsearch : search r (pre +:+ s) = Some h) by (by rewrite search_search_at, Hat).
  rewrite str_length_app in Hfuel.
  destruct (taken h) as [|a t] eqn:Ht.
  - (* an empty match: the scan goes one character further *)
    destruct e as [|b e]; [cbn in Hlen; lia|].
    rewrite str_app_cons in Hrest.
    destruct (IH e s (pos + k + 1) fuel) as (earlier & Heq & _).
    + cbn in Hlen. lia.
    + rewrite str_length_app. cbn in Hlen. lia.
    + done.
    + intros k' h' Hin' Hk'. cbn in Hlen.
      assert (Hin'' : (k', h') ∈ finditer_go r (S fuel) pos (pre +:+ s)).
      { cbn [finditer_go]. rewrite Hat, Ht, Hrest. by right. }
      pose proof (Hends _ _ Hin'' ltac:(lia)). lia.
    + exists (default "" (group1 h) :: earlier). split.
      * rewrite (findall_go_S r fuel (pre +:+ s)), Hsearch, Ht, Hrest, Heq.
        cbn [app]. do 2 f_equal. apply findall_go_fuel; cbn in Hlen; lia.
      * intros Hall. rewrite (Hall k Hk) in Hm. done.
  - destruct (IH e s (pos + k + String.length (String a t)) fuel) as (earlier & Heq & _).
    + cbn in Hlen. lia.
    + rewrite str_length_app. cbn in Hlen. lia.
    + done.
    + intros k' h' Hin' Hk'.
      assert (Hin'' : (k', h') ∈ finditer_go r (S fuel) pos (pre +:+ s)).
      { cbn [finditer_go]. rewrite Hat, Ht, Hrest. by right. }
      pose proof (Hends _ _ Hin'' ltac:(lia)). lia.
    + exists (default "" (group1 h) :: earlier). split.
      * rewrite (findall_go_S r fuel (pre +:+ s)), Hsearch, Ht, Hrest, Heq.
        cbn [app]. do 2 f_equal. apply findall_go_fuel; cbn in Hlen; lia.
      * intros Hall. rewrite (Hall k Hk) in Hm. done.
Qed.

(** A match [finditer] lists is the first match at the index it gives. *)
Lemma finditer_go_elem r fuel pos s k h :
  (k, h) ∈ finditer_go r fuel pos s →
  pos ≤ k ∧ ∃ l, matches r (drop_str (k - pos) s) = h :: l.
Proof.
  revert pos s. induction fuel as [|fuel IH]; intros pos s; [by intros ?%elem_of_nil|].
  cbn [finditer_go].
  destruct (search_at r s) as [[k0 h0]|] eqn:Hat; [|by intros ?%elem_of_nil].
  destruct (search_at_Some _ _ _ _ Hat) as (_ & [l Hm] & _).
  intros [[= -> ->]|Hin]%elem_of_cons.
  { split; [lia|]. exists l. by replace (pos + k0 - pos) with k0 by lia. }
  assert (Hsplit : splits (drop_str k0 s) h0).
  { apply (matches_splits r). rewrite Hm. by left. }
  unfold splits in Hsplit.
  assert (Hrest : rest h0 = drop_str (k0 + String.length (taken h0)) s).
  { by rewrite <- drop_str_drop_str, Hsplit, drop_str_app. }
  destruct (taken h0) as [|a t] eqn:Ht.
  - destruct (rest h0) as [|b s'] eqn:Hr; [by apply elem_of_nil in Hin|].
    apply IH in Hin as [Hle [l' Hl']]. split; [lia|]. exists l'.
    assert (Hs' : s' = drop_str (k0 + 1) s).
    { rewrite <- drop_str_drop_str. cbn [String.length] in Hrest.
      rewrite Nat.add_0_r in Hrest. by rewrite <- Hrest. }
    rewrite Hs', drop_str_drop_str in Hl'.
    by replace (k0 + 1 + (k - (pos + k0 + 1))) with (k - pos) in Hl' by lia.
  - apply IH in Hin as [Hle [l' Hl']]. split; [lia|]. exists l'.
    rewrite Hrest, drop_str_drop_str in Hl'.
    by replace (k0 + String.length (String a t)
                + (k - (pos + k0 + String.length (String a t)))) with (k - pos) in Hl' by lia.
Qed.

(** In the sentence the match starts at the blank before [(c)]: the marker
    [Copyright] is followed by no year. *)
Lemma sentence_match post :
  (∀ j, j < 9 → matches COPYRIGHT_RE (drop_str j (SENTENCE +:+ post)) = []) ∧
  ∃ l, matches COPYRIGHT_RE (drop_str 9 (SENTENCE +:+ post)) =
         Hit " (c) 2020 Jane Doe, " (Some "2020 Jane Doe, ")
             ("All rights reserved." +:+ post) :: l.
Proof.
  pose proof (search_sentence post) as Hs. rewrite search_search_at in Hs.
  destruct (search_at COPYRIGHT_RE (SENTENCE +:+ post)) as [[k h]|] eqn:Hat; [|done].
  injection Hs as ->.
  destruct (search_at_Some _ _ _ _ Hat) as (Hk & [l Hl] & Hbefore).
  assert (Hsplit : splits (drop_str k (SENTENCE +:+ post))
                     (Hit " (c) 2020 Jane Doe, " (Some "2020 Jane Doe, ")
                          ("All rights reserved." +:+ post))).
  { apply (matches_splits COPYRIGHT_RE). rewrite Hl. by left. }
  unfold splits in Hsplit. apply (f_equal String.length) in Hsplit.
  cbn [taken rest] in Hsplit.
  rewrite drop_str_length, !str_length_app in Hsplit.
  rewrite str_length_app in Hk.
  change (String.length SENTENCE) with 49 in Hsplit, Hk.
  change (String.length " (c) 2020 Jane Doe, ") with 20 in Hsplit.
  change (String.length "All rights reserved.") with 20 in Hsplit.
  assert (k = 9) as -> by lia.
  split; [done|by exists l].
Qed.

(** C6, amended: in a license text that contains the sentence and in which
    no statement found before the sentence runs into it (every match the
    scan finds that starts before the sentence ends before it), as when no
    statement starts before it or when the text starts with the sentence,
    the statement captured from the sentence is [2020 Jane Doe, ], with the
    comma and the space that follow the name; it comes after the statements
    captured before it, the first when there is none; the clause [All
    rights reserved] is left out and the scan resumes at it.  The statement
    is among those gathered from any license texts that hold such a text. *)
Theorem copyright_statement_of_sentence :
  ∀ set_iter texts pre post,
    (∀ X, set_iter X ≡ₚ elements X) →
    (∀ k h, (k, h) ∈ finditer COPYRIGHT_RE (pre +:+ SENTENCE +:+ post) →
            k < String.length pre →
            k + String.length (taken h) ≤ String.length pre) →
    pre +:+ SENTENCE +:+ post ∈ texts →
    findall COPYRIGHT_RE (pre +:+ SENTENCE +:+ post)
      = captured <$> finditer COPYRIGHT_RE (pre +:+ SENTENCE +:+ post) ∧
    (∃ earlier,
       findall COPYRIGHT_RE (pre +:+ SENTENCE +:+ post) =
         earlier ++ "2020 Jane Doe, "
                    :: findall COPYRIGHT_RE ("All rights reserved." +:+ post) ∧
       ((∀ k, k < String.length pre →
              matches COPYRIGHT_RE (drop_str k (pre +:+ SENTENCE +:+ post)) = []) →
        earlier = [])) ∧
    "2020 Jane Doe, " ∈ gather_copyrights set_iter texts.
Proof.
  intros set_iter texts pre post Hiter Hends Hin.
  destruct (sentence_match post) as [Hbefore [l Hmatch]].
  set (s := drop_str 9 (SENTENCE +:+ post)) in *.
  assert (Htext : pre +:+ SENTENCE +:+ post = (pre +:+ "Copyright") +:+ s).
  { by rewrite str_app_assoc. }
  assert (Hdrop : ∀ k, String.length pre ≤ k →
            drop_str k (pre +:+ SENTENCE +:+ post)
            = drop_str (k - String.length pre) (SENTENCE +:+ post)).
  { intros k Hk. replace k with (String.length pre + (k - String.length pre)) at 1 by lia.
    by rewrite <- drop_str_drop_str, drop_str_app. }
  assert (Hs : findall COPYRIGHT_RE s =
               "2020 Jane Doe, " :: findall COPYRIGHT_RE ("All rights reserved." +:+ post)).
  { by rewrite (findall_step _ _ _ (search_here _ _ _ _ Hmatch)). }
  assert (Hfind : ∃ earlier,
            findall COPYRIGHT_RE (pre +:+ SENTENCE +:+ post) =
              earlier ++ "2020 Jane Doe, "
                         :: findall COPYRIGHT_RE ("All rights reserved." +:+ post) ∧
            ((∀ k, k < String.length pre →
                   matches COPYRIGHT_RE (drop_str k (pre +:+ SENTENCE +:+ post)) = []) →
             earlier = [])).
  { destruct (findall_go_over_prefix COPYRIGHT_RE (String.length (pre +:+ "Copyright"))
                (pre +:+ "Copyright") s 0
                (S (String.length (pre +:+ SENTENCE +:+ post))))
      as (earlier & Heq & Hnil).
    - lia.
    - rewrite <- Htext. lia.
    - by rewrite Hmatch.
    - rewrite <- Htext. fold (finditer COPYRIGHT_RE (pre +:+ SENTENCE +:+ post)).
      intros k h Hk Hlt. rewrite str_length_app in Hlt |- *. cbn [String.length] in Hlt |- *.
      destruct (decide (k < String.length pre)) as [Hpre|Hpre].
      + pose proof (Hends k h Hk Hpre). lia.
      + exfalso. apply finditer_go_elem in Hk as [_ [l' Hl']].
        rewrite Nat.sub_0_r, Hdrop, Hbefore in Hl' by lia. done.
    - exists earlier. split.
      + unfold findall at 1. rewrite Htext at 2. rewrite Heq. f_equal.
        rewrite <- Hs. unfold findall. apply findall_go_fuel; [|lia].
        rewrite Htext, str_length_app. lia.
      + intros Hnone. apply Hnil. rewrite <- Htext. intros k Hk.
        rewrite str_length_app in Hk. cbn [String.length] in Hk.
        destruct (decide (k < String.length pre)) as [Hpre|Hpre]; [by apply Hnone|].
        rewrite Hdrop by lia. apply Hbefore. lia. }
  split; [apply findall_go_finditer_go|]. split; [done|].
  destruct Hfind as (earlier & Hfind & _).
  unfold gather_copyrights. fold (found_in texts).
  rewrite sorted_perm, Hiter, elem_of_elements. apply elem_of_found_in.
  exists (pre +:+ SENTENCE +:+ post). split; [done|]. rewrite Hfind.
  apply elem_of_app. right. by left.
Qed.

(** ** The theorems at work on sample data *)

Lemma resolve_arch_table_or_all_witness :
  resolve_arch "linux_armv7l" = ("armhf", []) ∧
  resolve_arch "win_amd64" =
    ("all", [LogRecord ERROR "unknown platform tag, assuming arch=all" []]).
Proof.
  split.
  - apply (resolve_arch_table_or_all "0.4.1" (λ _ n, n) (λ _ _ _, ([], []))
             sample_ctx sample_wheel None "linux_armv7l").
    vm_compute. reflexivity.
  - apply (resolve_arch_table_or_all "0.4.1" (λ _ n, n) (λ _ _ _, ([], []))
             sample_ctx sample_wheel None "win_amd64").
    vm_compute. reflexivity.
Defined.

Lemma search_shlibs_deps_cache_hit_witness :
  outcome (search_shlibs_deps (analyzer_says MESSAGE) elements sample_package cached_world)
  = Some (["libgcc1:amd64"; "libc6:amd64"; "debhelper"], []).
Proof.
  destruct (search_shlibs_deps_cache_hit (analyzer_says MESSAGE) elements
              sample_package cached_world CACHED_SUBSTVARS) as [Hrun _].
  - vm_compute. reflexivity.
  - vm_compute. discriminate.
  - rewrite Hrun. vm_compute. reflexivity.
Defined.

Lemma select_provider_libfoo_witness :
  outcome (search_provider_run (shell_says APT_LIBFOO) elements "libfoo.so" empty_world)
    = Some (["libfoo1"], [["apt-file"; "search"; "libfoo.so"]]) ∧
  outcome (search_provider_run (shell_says APT_DBG_ONLY) elements "libfoo.so" empty_world)
    = Some ([], [["apt-file"; "search"; "libfoo.so"]]).
Proof.
  split.
  - destruct (select_provider_libfoo (shell_says APT_LIBFOO) elements "libfoo.so"
                ∅ empty_world APT_LIBFOO 0%Z ∅ eq_refl) as [Hpick _].
    destruct Hpick as (_ & _ & _ & Hrun).
    + apply (bool_decide_unpack _). vm_compute. exact I.
    + unfold search_provider_run. rewrite Hrun. vm_compute. reflexivity.
  - destruct (select_provider_libfoo (shell_says APT_DBG_ONLY) elements "libfoo.so"
                ∅ empty_world APT_DBG_ONLY 0%Z ∅ eq_refl) as [_ Hskip].
    destruct Hskip as [_ Hrun].
    + vm_compute. reflexivity.
    + unfold search_provider_run. rewrite Hrun. vm_compute. reflexivity.
Defined.

Lemma select_provider_same_length_witness :
  match (select_provider "libfoo.so" ["libfoo1"; "libfoo-dev"; "libfoo1-dbg"]).1,
        (select_provider "libfoo.so" ["libfoo-dev"; "libfoo1"; "libfoo1-dbg"]).1 with
  | Some p1, Some p2 =>
      (p1 ∈ ["libfoo1"; "libfoo-dev"; "libfoo1-dbg"] ∧ not_dbg p1 ∧
       ∀ q, q ∈ ["libfoo1"; "libfoo-dev"; "libfoo1-dbg"] → not_dbg q →
            String.length p1 ≤ String.length q) ∧
      (p2 ∈ ["libfoo1"; "libfoo-dev"; "libfoo1-dbg"] ∧ not_dbg p2 ∧
       ∀ q, q ∈ ["libfoo1"; "libfoo-dev"; "libfoo1-dbg"] → not_dbg q →
            String.length p2 ≤ String.length q) ∧
      first_shortest p1 ["libfoo1"; "libfoo-dev"; "libfoo1-dbg"] ∧
      first_shortest p2 ["libfoo-dev"; "libfoo1"; "libfoo1-dbg"] ∧
      String.length p1 = String.length p2 ∧
      ((∀ q, q ∈ ["libfoo1"; "libfoo-dev"; "libfoo1-dbg"] → not_dbg q →
             String.length q = String.length p1 → q = p1) →
       p1 = p2)
  | None, None => ∀ q, q ∈ ["libfoo1"; "libfoo-dev"; "libfoo1-dbg"] → ¬ not_dbg q
  | _, _ => False
  end.
Proof. apply select_provider_same_length, perm_swap. Defined.

Lemma copyright_statement_of_sentence_witness :
  findall COPYRIGHT_RE (EARLIER_LINE +:+ SENTENCE +:+ LICENSE_TAIL)
    = captured <$> finditer COPYRIGHT_RE (EARLIER_LINE +:+ SENTENCE +:+ LICENSE_TAIL) ∧
  (∃ earlier,
     findall COPYRIGHT_RE (EARLIER_LINE +:+ SENTENCE +:+ LICENSE_TAIL) =
       earlier ++ "2020 Jane Doe, "
                  :: findall COPYRIGHT_RE ("All rights reserved." +:+ LICENSE_TAIL) ∧
     ((∀ k, k < String.length EARLIER_LINE →
            matches COPYRIGHT_RE
              (drop_str k (EARLIER_LINE +:+ SENTENCE +:+ LICENSE_TAIL)) = []) →
      earlier = [])) ∧
  "2020 Jane Doe, "
  ∈ gather_copyrights elements [EARLIER_LINE +:+ SENTENCE +:+ LICENSE_TAIL].
Proof.
  apply (copyright_statement_of_sentence elements
           [EARLIER_LINE +:+ SENTENCE +:+ LICENSE_TAIL] EARLIER_LINE LICENSE_TAIL).
  - intros X. reflexivity.
  - intros k h Hin.
    assert (Hall : Forall (λ kh : nat * hit, kh.1 < 20 → kh.1 + String.length (taken kh.2) ≤ 20)
                     (finditer COPYRIGHT_RE (EARLIER_LINE +:+ SENTENCE +:+ LICENSE_TAIL))).
    { apply Forall_forall. intros kh.
      let v := eval vm_compute in
                 (finditer COPYRIGHT_RE (EARLIER_LINE +:+ SENTENCE +:+ LICENSE_TAIL)) in
      change (finditer COPYRIGHT_RE (EARLIER_LINE +:+ SENTENCE +:+ LICENSE_TAIL)) with v.
      intros [->|[->|?%elem_of_nil]%elem_of_cons]%elem_of_cons; [cbn; lia..|done]. }
    rewrite Forall_forall in Hall. exact (Hall (k, h) Hin).
  - left.
Defined.

Lemma gather_copyrights_canonical_witness :
  gather_copyrights elements [SENTENCE; "(c) 2019 ACME Corp"] =
  gather_copyrights (reverse ∘ elements) ["(c) 2019 ACME Corp"; SENTENCE].
Proof.
  refine (proj1 (gather_copyrights_canonical elements (reverse ∘ elements)
                   [SENTENCE; "(c) 2019 ACME Corp"] ["(c) 2019 ACME Corp"; SENTENCE]
                   _ _ _)).
  - intros X. reflexivity.
  - intros X. apply reverse_Permutation.
  - apply perm_swap.
Defined.

(** ** The patterns on sample texts *)

Example DPKG_SHLIBS_RE_sample :
  findall DPKG_SHLIBS_RE
    ("dpkg-shlibdeps: error: cannot find library libfoo.so.1 needed by ./a.so" +:+ NL +:+
     "dpkg-shlibdeps: error: cannot find library libbar.so needed by ./a.so" +:+ NL)
  = ["libfoo.so.1"; "libbar.so"].
Proof. vm_compute. reflexivity. Qed.

Example APT_FILE_RE_sample :
  findall APT_FILE_RE APT_LIBFOO = ["libfoo-dev"; "libfoo1"; "libfoo1-dbg"].
Proof. vm_compute. reflexivity. Qed.

Example SUBSTVARS_RE_sample :
  parsed_substvars CACHED_SUBSTVARS = ["libc6"; "libgcc1"].
Proof. vm_compute. reflexivity. Qed.

Example COPYRIGHT_RE_sample :
  findall COPYRIGHT_RE
    ("Copyright: 2005-2019, NumPy Developers." +:+ NL +:+ "All rights reserved." +:+ NL +:+
     String COPYRIGHT_SIGN " 2001 Python Software Foundation; All Rights Reserved" +:+ NL)
  = ["2005-2019, NumPy Developers."; "2001 Python Software Foundation; "].
Proof. vm_compute. reflexivity. Qed.

(** * Further properties *)

(** ** What a match of a pattern looks like *)

Lemma matches_Chr_inv p s h :
  h ∈ matches (Chr p) s →
  ∃ a s', s = String a s' ∧ p a = true ∧ h = Hit (String a "") None s'.
Proof.
  destruct s as [|a s]; simpl; [by intros ?%elem_of_nil|].
  destruct (p a) eqn:Hp; [|by intros ?%elem_of_nil].
  intros ->%list_elem_of_singleton. eauto.
Qed.

Lemma matches_Seq_inv r1 r2 s h :
  h ∈ matches (Seq r1 r2) s →
  ∃ h1 h2, h1 ∈ matches r1 s ∧ h2 ∈ matches r2 (rest h1) ∧ h = hit_then h1 h2.
Proof.
  rewrite matches_Seq.
  intros (h1 & (h2 & ->%list_elem_of_singleton & Hh2)%list_elem_of_bind & Hh1)%list_elem_of_bind.
  eauto.
Qed.

Lemma matches_Group_inv r s h :
  h ∈ matches (Group r) s →
  ∃ h', h' ∈ matches r s ∧ h = Hit (taken h') (Some (taken h')) (rest h').
Proof.
  rewrite matches_Group.
  intros (h' & ->%list_elem_of_singleton & Hh')%list_elem_of_bind. eauto.
Qed.

Lemma matches_Opt_inv r s h :
  h ∈ matches (Opt r) s → h ∈ matches r s ∨ h = hit0 s.
Proof.
  unfold Opt. cbn [matches]. rewrite elem_of_app, list_elem_of_singleton. tauto.
Qed.

Lemma matches_Star r s : matches (Star r) s = star_go (matches r) (String.length s) s.
Proof. reflexivity. Qed.

Lemma matches_Ahead_inv r s h : h ∈ matches (Ahead r) s → h = hit0 s.
Proof.
  cbn [matches]. destruct (matches r s); [by intros ?%elem_of_nil|].
  by intros ->%list_elem_of_singleton.
Qed.

Lemma matches_NotAhead_inv r s h : h ∈ matches (NotAhead r) s → h = hit0 s.
Proof.
  cbn [matches]. destruct (matches r s); [|by intros ?%elem_of_nil].
  by intros ->%list_elem_of_singleton.
Qed.

Lemma all_chars_app p s1 s2 :
  all_chars p (s1 +:+ s2) = all_chars p s1 && all_chars p s2.
Proof.
  induction s1 as [|a s1 IH]; [done|].
  rewrite str_app_cons. simpl. by rewrite IH, andb_assoc.
Qed.

Lemma star_chr_inv p fuel s h :
  h ∈ star_go (matches (Chr p)) fuel s → all_chars p (taken h) = true ∧ group1 h = None.
Proof.
  revert s h. induction fuel as [|fuel IH]; intros s h; simpl.
  - by intros ->%list_elem_of_singleton.
  - rewrite elem_of_app, list_elem_of_bind, list_elem_of_singleton.
    intros [(h1 & Hh & Hh1)| ->]; [|done].
    apply matches_Chr_inv in Hh1 as (a & s' & -> & Hp & ->).
    cbn [taken rest] in Hh.
    apply list_elem_of_bind in Hh as (h2 & ->%list_elem_of_singleton & Hh2).
    apply IH in Hh2 as [Hall Hg]. simpl. rewrite Hg.
    split; [|done]. rewrite Hp. exact Hall.
Qed.

Lemma matches_Star_Chr_inv p s h :
  h ∈ matches (Star (Chr p)) s → all_chars p (taken h) = true ∧ group1 h = None.
Proof. apply star_chr_inv. Qed.

Lemma matches_Plus_Chr_inv p s h :
  h ∈ matches (Plus (Chr p)) s →
  taken h ≠ "" ∧ all_chars p (taken h) = true ∧ group1 h = None.
Proof.
  intros (h1 & h2 & Hh1 & Hh2 & ->)%matches_Seq_inv.
  apply matches_Chr_inv in Hh1 as (a & s' & -> & Hp & ->).
  apply matches_Star_Chr_inv in Hh2 as [Hall Hg].
  simpl. rewrite Hg. split_and!; [done| |done].
  rewrite Hp. exact Hall.
Qed.

Lemma matches_lit_inv w s h :
  h ∈ matches (lit w) s → taken h = w ∧ group1 h = None.
Proof.
  revert s h. induction w as [|c w IH]; intros s h.
  - simpl. by intros ->%list_elem_of_singleton.
  - destruct w as [|c' w].
    + cbn [lit]. intros (a & s' & -> & Hp & ->)%matches_Chr_inv.
      apply Ascii.eqb_eq in Hp as ->. done.
    + change (lit (String c (String c' w)))
        with (Seq (Chr (is_char c)) (lit (String c' w))).
      intros (h1 & h2 & Hh1 & Hh2 & ->)%matches_Seq_inv.
      apply matches_Chr_inv in Hh1 as (a & s' & -> & Hp & ->).
      apply Ascii.eqb_eq in Hp as ->.
      apply IH in Hh2 as [Ht Hg]. simpl. by rewrite Ht, Hg.
Qed.

(** A pattern without a group reports none. *)
Lemma star_go_no_group step fuel s h :
  (∀ s' h', h' ∈ step s' → group1 h' = None) →
  h ∈ star_go step fuel s → group1 h = None.
Proof.
  intros Hstep. revert s h. induction fuel as [|fuel IH]; intros s h; simpl.
  - by intros ->%list_elem_of_singleton.
  - rewrite elem_of_app, list_elem_of_bind, list_elem_of_singleton.
    intros [(h1 & Hh & Hh1)| ->]; [|done].
    destruct (taken h1); [by apply elem_of_nil in Hh|].
    apply list_elem_of_bind in Hh as (h2 & ->%list_elem_of_singleton & Hh2).
    simpl. by rewrite (IH _ _ Hh2), (Hstep _ _ Hh1).
Qed.

Lemma matches_no_group r s h :
  has_group r = false → h ∈ matches r s → group1 h = None.
Proof.
  revert s h. induction r as [|p|r1 IH1 r2 IH2|r1 IH1 r2 IH2|r IH|r IH|r IH|r IH];
    intros s h Hg; simpl in Hg.
  - simpl. by intros ->%list_elem_of_singleton.
  - by intros (a & s' & -> & _ & ->)%matches_Chr_inv.
  - apply orb_false_iff in Hg as [Hg1 Hg2].
    intros (h1 & h2 & Hh1 & Hh2 & ->)%matches_Seq_inv.
    simpl. by rewrite (IH2 _ _ Hg2 Hh2), (IH1 _ _ Hg1 Hh1).
  - apply orb_false_iff in Hg as [Hg1 Hg2].
    simpl. rewrite elem_of_app. intros [?|?]; eauto.
  - simpl. apply star_go_no_group. eauto.
  - done.
  - simpl. destruct (matches r s); [by intros ?%elem_of_nil | by intros ->%list_elem_of_singleton].
  - simpl. destruct (matches r s); [by intros ->%list_elem_of_singleton | by intros ?%elem_of_nil].
Qed.

Lemma search_inv r s h : search r s = Some h → ∃ s', h ∈ matches r s'.
Proof.
  induction s as [|a s IH]; simpl.
  - destruct (matches r "") as [|h' l] eqn:Hm; [done|]. intros [= ->].
    exists "". rewrite Hm. by left.
  - destruct (matches r (String a s)) as [|h' l] eqn:Hm; [done|].
    intros [= ->]. exists (String a s). rewrite Hm. by left.
Qed.

Lemma findall_go_inv r fuel s x :
  x ∈ findall_go r fuel s → ∃ s' h, h ∈ matches r s' ∧ x = default "" (group1 h).
Proof.
  revert s. induction fuel as [|fuel IH]; intros s; [by intros ?%elem_of_nil|].
  rewrite findall_go_S. destruct (search r s) as [h|] eqn:Hs; [|by intros ?%elem_of_nil].
  intros [->|Hx]%elem_of_cons.
  - apply search_inv in Hs as [s' Hh]. eauto.
  - destruct (taken h); [destruct (rest h); [by apply elem_of_nil in Hx|]|]; eauto.
Qed.

Lemma findall_inv r s x :
  x ∈ findall r s → ∃ s' h, h ∈ matches r s' ∧ x = default "" (group1 h).
Proof. apply findall_go_inv. Qed.

Lemma star_go_all_chars p step fuel s h :
  (∀ s' h', h' ∈ step s' → all_chars p (taken h') = true) →
  h ∈ star_go step fuel s → all_chars p (taken h) = true.
Proof.
  intros Hstep. revert s h. induction fuel as [|fuel IH]; intros s h; simpl.
  - by intros ->%list_elem_of_singleton.
  - rewrite elem_of_app, list_elem_of_bind, list_elem_of_singleton.
    intros [(h1 & Hh & Hh1)| ->]; [|done].
    destruct (taken h1) eqn:Ht; [by apply elem_of_nil in Hh|].
    apply list_elem_of_bind in Hh as (h2 & ->%list_elem_of_singleton & Hh2).
    cbn [taken hit_then]. rewrite Ht, all_chars_app, <- Ht.
    by rewrite (Hstep _ _ Hh1), (IH _ _ Hh2).
Qed.

Lemma is_digit_is_dot a : is_digit a = true → is_dot a = true.
Proof. destruct a as [[] [] [] [] [] [] [] []]; vm_compute; congruence. Qed.

Lemma str_app_nil_r (s : string) : s +:+ "" = s.
Proof. induction s as [|a s IH]; [done|]. by rewrite str_app_cons, IH. Qed.

(** X1: every name read in [debian/substvars] is a word: it is not empty and
    holds no [=], no comma, no parenthesis and no white space. *)
Theorem parsed_substvars_names :
  ∀ txt, Forall (λ x, x ≠ "" ∧ all_chars is_name_char x = true) (parsed_substvars txt).
Proof.
  intros txt. apply Forall_forall. intros x (s & h & Hh & ->)%findall_inv.
  unfold SUBSTVARS_RE, cat in Hh.
  apply matches_Seq_inv in Hh as (h1 & h2 & Hh1 & Hh2 & ->).
  apply matches_Group_inv in Hh1 as (g & Hg & ->).
  apply matches_no_group in Hh2; [|reflexivity].
  apply matches_Plus_Chr_inv in Hg as (Hne & Hall & _).
  cbn [group1 hit_then]. rewrite Hh2. done.
Qed.

(** X2: a library [dpkg-shlibdeps] is found to miss is named on one line, by a
    non-empty stem, [.so] and a version made of dots and digits. *)
Theorem missing_libs_names :
  ∀ output pos, Forall library_name (findall_from DPKG_SHLIBS_RE output pos).
Proof.
  intros output pos. apply Forall_forall. intros x (s & h & Hh & ->)%findall_inv.
  unfold DPKG_SHLIBS_RE, cat in Hh.
  apply matches_Seq_inv in Hh as (h1 & h2 & Hh1 & Hh2 & ->).
  apply matches_Seq_inv in Hh2 as (hg & h3 & Hhg & Hh3 & ->).
  apply matches_lit_inv in Hh3 as [_ Hg3].
  apply matches_Group_inv in Hhg as (g & Hg & ->).
  cbn [group1 hit_then]. rewrite Hg3. cbn [default].
  apply matches_Seq_inv in Hg as (g1 & g2 & Hg1 & Hg2 & ->).
  apply matches_Seq_inv in Hg2 as (g3 & g4 & Hg3' & Hg4 & ->).
  apply matches_Plus_Chr_inv in Hg1 as (Hne & Hall & _).
  apply matches_lit_inv in Hg3' as [Hso _].
  apply matches_Star_Chr_inv in Hg4 as [Hver _].
  exists (taken g1), (taken g4). cbn [taken hit_then]. rewrite Hso. done.
Qed.

(** X3: a package [apt-file] is taken to name has [lib] in its name, with at
    least one character after it, and is named on one line: a package whose
    name has no [lib] in it is never a candidate. *)
Theorem apt_file_names :
  ∀ output, Forall lib_package_name (findall APT_FILE_RE output).
Proof.
  intros output. apply Forall_forall. intros x (s & h & Hh & ->)%findall_inv.
  unfold APT_FILE_RE, cat in Hh.
  apply matches_Seq_inv in Hh as (hg & h2 & Hhg & Hh2 & ->).
  apply matches_no_group in Hh2; [|reflexivity].
  apply matches_Group_inv in Hhg as (g & Hg & ->).
  cbn [group1 hit_then]. rewrite Hh2. cbn [default].
  apply matches_Seq_inv in Hg as (g1 & g2 & Hg1 & Hg2 & ->).
  apply matches_Seq_inv in Hg2 as (g3 & g4 & Hg3 & Hg4 & ->).
  apply matches_Star_Chr_inv in Hg1 as [Hbefore _].
  apply matches_lit_inv in Hg3 as [Hlib _].
  apply matches_Plus_Chr_inv in Hg4 as (Hne & Hafter & _).
  exists (taken g1), (taken g4). cbn [taken hit_then]. rewrite Hlib. done.
Qed.

(** X4: a copyright statement that is captured starts with two digits, goes on
    for at least one more character and stays on the line it starts on. *)
Theorem copyright_statements_dated :
  ∀ text, Forall dated_statement (findall COPYRIGHT_RE text).
Proof.
  intros text. apply Forall_forall. intros x (s & h & Hh & ->)%findall_inv.
  unfold COPYRIGHT_RE, cat in Hh.
  apply matches_Seq_inv in Hh as (h1 & h2 & Hh1 & Hh2 & ->).
  apply matches_Seq_inv in Hh2 as (h3 & hg & Hh3 & Hhg & ->).
  apply matches_Group_inv in Hhg as (g & Hg & ->).
  cbn [group1 hit_then default].
  apply matches_Seq_inv in Hg as (ga & gy & Hga & Hgy & ->).
  assert (Hahead : taken ga = "").
  { unfold LETTER_AHEAD in Hga. by apply matches_Ahead_inv in Hga as ->. }
  cbn [taken hit_then]. rewrite Hahead. change ("" +:+ taken gy) with (taken gy).
  unfold YEAR_AND_TEXT, Rep_2_4, Plus, cat in Hgy.
  apply matches_Seq_inv in Hgy as (y & t & Hy & Ht & ->).
  apply matches_Seq_inv in Hy as (y1 & y' & Hy1 & Hy' & ->).
  apply matches_Seq_inv in Hy' as (y2 & y34 & Hy2 & Hy34 & ->).
  apply matches_Chr_inv in Hy1 as (d1 & s1 & _ & Hd1 & ->).
  apply matches_Chr_inv in Hy2 as (d2 & s2 & _ & Hd2 & ->).
  assert (Hmore : all_chars is_dot (taken y34) = true).
  { apply matches_Opt_inv in Hy34 as [Hy34| ->]; [|done].
    apply matches_Seq_inv in Hy34 as (y3 & y4 & Hy3 & Hy4 & ->).
    apply matches_Chr_inv in Hy3 as (d3 & s3 & _ & Hd3 & ->).
    cbn [taken hit_then]. rewrite str_app_cons. cbn [all_chars].
    rewrite (is_digit_is_dot _ Hd3). cbn [andb].
    apply matches_Opt_inv in Hy4 as [Hy4| ->]; [|done].
    apply matches_Chr_inv in Hy4 as (d4 & s4 & _ & Hd4 & ->).
    cbv [taken all_chars String.append]. by rewrite (is_digit_is_dot _ Hd4). }
  assert (Hbody : ∀ s' h', h' ∈ matches
             (Seq (NotAhead (Seq (lit_i "all") (Seq (Chr is_space) (lit_i "rights"))))
                  (Chr is_dot)) s' →
             taken h' ≠ "" ∧ all_chars is_dot (taken h') = true).
  { intros s' h' (n & c & Hn & Hc & ->)%matches_Seq_inv.
    apply matches_Chr_inv in Hc as (a & s'' & _ & Ha & ->).
    apply matches_NotAhead_inv in Hn as ->.
    cbn [taken hit_then hit0]. change ("" +:+ String a "") with (String a "").
    split; [done|]. cbn [all_chars]. by rewrite Ha. }
  apply matches_Seq_inv in Ht as (t1 & t2 & Ht1 & Ht2 & ->).
  apply Hbody in Ht1 as [Hne1 Hall1].
  rewrite matches_Star in Ht2.
  apply (star_go_all_chars is_dot) in Ht2; [|intros s' h' Hh'; exact (proj2 (Hbody _ _ Hh'))].
  exists d1, d2, (taken y34 +:+ taken t1 +:+ taken t2).
  cbn [taken hit_then].
  split_and!; [reflexivity | done | done | |].
  - intros Hnil. apply (f_equal String.length) in Hnil.
    rewrite !str_length_app in Hnil. destruct (taken t1); [done|]. simpl in Hnil. lia.
  - by rewrite !all_chars_app, Hmore, Hall1, Ht2.
Qed.

(** ** [search_shlibs_deps]: processes, failures, what it changes *)

Lemma parse_substvars_cached self shlibdeps w :
  parse_substvars self shlibdeps w = Some (shlibdeps ∪ list_to_set (cached self w), w).
Proof.
  unfold cached. destruct (files w !! _) as [txt|] eqn:Hfile.
  - by apply parse_substvars_file.
  - rewrite (parse_substvars_no_file _ _ _ Hfile). simpl. by rewrite (right_id_L ∅ (∪)).
Qed.

Lemma list_to_set_empty_iff (l : list string) : (list_to_set l : gset string) = ∅ ↔ l = [].
Proof.
  split; [|by intros ->]. destruct l as [|x l]; [done|]. simpl. set_solver.
Qed.

Lemma search_provider_inv shell_run set_iter lib X w X' w' :
  search_provider shell_run set_iter lib X w = Some (X', w') →
  X ⊆ X' ∧ spawned w' = spawned w ++ [apt_args lib] ∧
  ∃ logs, journal w' = journal w ++ logs.
Proof.
  unfold search_provider, mbind, M_bind, shell.
  destruct (shell_run _ _ _) as [[[out rc] fs]|]; [|done]. cbn [fst].
  destruct (select_provider _ _) as [picked logs]. cbn.
  intros [= <- <-]. cbn. split_and!; [|done|by eexists].
  destruct picked; set_solver.
Qed.

Lemma for_each_search_provider_inv shell_run set_iter libs X w X' w' :
  for_each libs (search_provider shell_run set_iter) X w = Some (X', w') →
  X ⊆ X' ∧ spawned w' = spawned w ++ (apt_args <$> libs) ∧
  ∃ logs, journal w' = journal w ++ logs.
Proof.
  revert X w. induction libs as [|lib libs IH]; intros X w; simpl.
  - intros [= <- <-]. rewrite app_nil_r. split_and!; [done..|]. exists []. by rewrite app_nil_r.
  - unfold mbind, M_bind.
    destruct (search_provider _ _ lib X w) as [[X1 w1]|] eqn:H1; [|done].
    apply search_provider_inv in H1 as (Hsub1 & Hsp1 & logs1 & Hj1).
    intros H2. destruct (IH _ _ H2) as (Hsub & Hsp & logs & Hj).
    split_and!; [by etrans| |].
    + by rewrite Hsp, Hsp1, <- app_assoc.
    + exists (logs1 ++ logs). by rewrite Hj, Hj1, <- app_assoc.
Qed.

Lemma for_each_search_provider_raises shell_run set_iter libs lib X w :
  lib ∈ libs →
  (∀ fs, shell_run (apt_args lib) None fs = None) →
  for_each libs (search_provider shell_run set_iter) X w = None.
Proof.
  intros Hin Hfail. revert X w. induction libs as [|l libs IH]; intros X w.
  - by apply elem_of_nil in Hin.
  - simpl. unfold mbind, M_bind.
    destruct (search_provider _ _ l X w) as [[X1 w1]|] eqn:H1; [|done].
    apply elem_of_cons in Hin as [->|Hin]; [|by apply IH].
    unfold search_provider, mbind, M_bind, shell in H1.
    fold (apt_args l) in H1. by rewrite Hfail in H1.
Qed.

Lemma search_shlibs_deps_cached_eq shell_run set_iter self w :
  record_lib_dirs (wheel self) = [] ∨ cached self w ≠ [] →
  search_shlibs_deps shell_run set_iter self w =
    Some (set_build_deps self
            (build_deps self ∪ tagged self (list_to_set (cached self w))), w).
Proof.
  intros Hor. unfold search_shlibs_deps, mbind, M_bind.
  rewrite parse_substvars_cached, (left_id_L ∅ (∪)).
  assert (Hskip : bool_decide (record_lib_dirs (wheel self) ≠ [])
                  && bool_decide ((list_to_set (cached self w) : gset string) = ∅) = false).
  { destruct Hor as [Hdirs|Hcached].
    - rewrite Hdirs. by rewrite (bool_decide_eq_false_2 ([] ≠ [])) by (intros H; by apply H).
    - rewrite (bool_decide_eq_false_2 (_ = ∅)); [by rewrite andb_false_r|].
      by rewrite list_to_set_empty_iff. }
  rewrite Hskip. cbn [mret M_ret].
  rewrite (bool_decide_eq_false_2 (∅ ≠ ∅)) by (intros H; by apply H).
  reflexivity.
Qed.

Lemma search_shlibs_deps_analyzer_raises shell_run set_iter self w :
  record_lib_dirs (wheel self) ≠ [] →
  cached self w = [] →
  shell_run (dpkg_args self) (Some (root self)) (files w) = None →
  search_shlibs_deps shell_run set_iter self w = None.
Proof.
  intros Hdirs Hcached Hfail. unfold search_shlibs_deps, mbind at 1 2, M_bind at 1 2.
  rewrite parse_substvars_cached, Hcached.
  change (list_to_set []) with (∅ : gset string). rewrite (left_id_L ∅ (∪)).
  rewrite (bool_decide_eq_true_2 (_ ≠ [])) by done.
  rewrite (bool_decide_eq_true_2 (∅ = ∅)) by done. cbn [andb].
  fold (dpkg_args self). unfold mbind at 1, M_bind at 1, shell at 1.
  by rewrite Hfail.
Qed.

(** The run when the analyzer is started and prints [out]. *)
Lemma search_shlibs_deps_analyzer_run shell_run set_iter self w out rc fs :
  record_lib_dirs (wheel self) ≠ [] →
  cached self w = [] →
  shell_run (dpkg_args self) (Some (root self)) (files w) = Some (out, rc, fs) →
  let w1 := {| files := fs; spawned := spawned w ++ [dpkg_args self];
               journal := journal w |} in
  search_shlibs_deps shell_run set_iter self w =
    if bool_decide (missing_in out ≠ ∅) then
      match for_each (set_iter (missing_in out)) (search_provider shell_run set_iter)
              (list_to_set (cached self w1))
              {| files := fs; spawned := spawned w ++ [dpkg_args self];
                 journal := journal w ++
                   [LogRecord INFO
                      "dpkg-shlibdeps reported the following missing shared libs dependencies: %s"
                      [VSet (missing_in out)]] |} with
      | Some (X, w2) =>
          Some (set_build_deps self (build_deps self ∪ tagged self X),
                if bool_decide (X ≠ ∅)
                then {| files := files w2; spawned := spawned w2;
                        journal := journal w2 ++
                          [LogRecord INFO "detected dependencies: %s" [VSet X]] |}
                else w2)
      | None => None
      end
    else Some (set_build_deps self
                 (build_deps self ∪ tagged self (list_to_set (cached self w1))), w1).
Proof.
  intros Hdirs Hcached Hrun w1. unfold search_shlibs_deps, mbind at 1 2, M_bind at 1 2.
  rewrite parse_substvars_cached, Hcached.
  change (list_to_set []) with (∅ : gset string). rewrite (left_id_L ∅ (∪)).
  rewrite (bool_decide_eq_true_2 (_ ≠ [])) by done.
  rewrite (bool_decide_eq_true_2 (∅ = ∅)) by done. cbn [andb].
  fold (dpkg_args self). unfold mbind at 1, M_bind at 1, shell at 1.
  rewrite Hrun. cbn [fst]. fold (missing_in out). fold w1.
  unfold mbind at 1, M_bind at 1. rewrite parse_substvars_cached, (left_id_L ∅ (∪)).
  cbn [mret M_ret].
  destruct (bool_decide (missing_in out ≠ ∅)); [|done].
  unfold mbind, M_bind. cbn [log]. fold w1.
  destruct (for_each _ _ _ _) as [[X w2]|]; [|done].
  unfold when. destruct (bool_decide (X ≠ ∅)); done.
Qed.

Lemma for_each_search_provider_None shell_run set_iter libs X w :
  for_each libs (search_provider shell_run set_iter) X w = None →
  ∃ lib fs, lib ∈ libs ∧ shell_run (apt_args lib) None fs = None.
Proof.
  revert X w. induction libs as [|lib libs IH]; intros X w; [done|].
  simpl. unfold mbind, M_bind.
  destruct (search_provider _ _ lib X w) as [[X1 w1]|] eqn:H1.
  - intros (l & fs & Hl & Hfs)%IH. exists l, fs. split; [by right | done].
  - intros _. exists lib, (files w). split; [by left|].
    unfold search_provider, mbind, M_bind, shell in H1. fold (apt_args lib) in H1.
    destruct (shell_run (apt_args lib) None (files w)) as [[[out rc] fs]|]; [|done].
    cbn [fst] in H1. by destruct (select_provider _ _).
Qed.

(** X5: for a wheel that declares no library directory, [search_shlibs_deps]
    starts no process, logs nothing and writes nothing: it returns in the
    world it started in, and the build dependencies grow by the names a
    [debian/substvars] holds; without such a file the descriptor is returned
    as it was. *)
Theorem search_shlibs_deps_without_lib_dirs :
  ∀ shell_run set_iter self w,
    record_lib_dirs (wheel self) = [] →
    search_shlibs_deps shell_run set_iter self w =
      Some (set_build_deps self
              (build_deps self ∪ tagged self (list_to_set (cached self w))), w) ∧
    (files w !! path_join (debian self) "substvars" = None →
     search_shlibs_deps shell_run set_iter self w = Some (self, w)).
Proof.
  intros shell_run set_iter self w Hdirs.
  pose proof (search_shlibs_deps_cached_eq shell_run set_iter self w (or_introl Hdirs)) as Hrun.
  split; [done|]. intros Hfile. rewrite Hrun. unfold cached. rewrite Hfile.
  change (list_to_set []) with (∅ : gset string).
  unfold tagged. rewrite set_map_empty, (right_id_L ∅ (∪)). by destruct self.
Qed.

(** X6: a process that cannot be run is fatal.  When the analyzer is to be
    run (the wheel has a library directory and no name is cached) and
    [shell] raises for it, or raises for the [apt-file] query of one of the
    libraries found missing, [search_shlibs_deps] raises. *)
Theorem search_shlibs_deps_shell_failure :
  ∀ shell_run set_iter self w,
    (∀ X, set_iter X ≡ₚ elements X) →
    record_lib_dirs (wheel self) ≠ [] →
    cached self w = [] →
    (shell_run (dpkg_args self) (Some (root self)) (files w) = None ∨
     ∃ out rc fs lib,
       shell_run (dpkg_args self) (Some (root self)) (files w) = Some (out, rc, fs) ∧
       lib ∈ missing_in out ∧ ∀ fs', shell_run (apt_args lib) None fs' = None) →
    search_shlibs_deps shell_run set_iter self w = None.
Proof.
  intros shell_run set_iter self w Hiter Hdirs Hcached [Hfail|(out & rc & fs & lib & Hrun & Hlib & Hfail)].
  - by apply search_shlibs_deps_analyzer_raises.
  - rewrite (search_shlibs_deps_analyzer_run _ _ _ _ _ _ _ Hdirs Hcached Hrun).
    rewrite bool_decide_eq_true_2 by set_solver.
    rewrite (for_each_search_provider_raises _ _ _ lib); [done| |done].
    by rewrite Hiter, elem_of_elements.
Qed.

(** X7: when the analyzer is run and prints [out], and the method returns,
    the processes started are the analyzer, once, then one [apt-file search]
    for each distinct library found missing in [out], in the order the set
    hands them out, and nothing else. *)
Theorem search_shlibs_deps_processes :
  ∀ shell_run set_iter self w out rc fs,
    (∀ X, set_iter X ≡ₚ elements X) →
    record_lib_dirs (wheel self) ≠ [] →
    cached self w = [] →
    shell_run (dpkg_args self) (Some (root self)) (files w) = Some (out, rc, fs) →
    match search_shlibs_deps shell_run set_iter self w with
    | Some (_, w') =>
        spawned w' = spawned w ++ dpkg_args self :: (apt_args <$> set_iter (missing_in out)) ∧
        length (spawned w') = length (spawned w) + 1 + size (missing_in out)
    | None => True
    end.
Proof.
  intros shell_run set_iter self w out rc fs Hiter Hdirs Hcached Hrun.
  rewrite (search_shlibs_deps_analyzer_run _ _ _ _ _ _ _ Hdirs Hcached Hrun).
  assert (Hlen : length (set_iter (missing_in out)) = size (missing_in out)).
  { by rewrite Hiter. }
  destruct (bool_decide (missing_in out ≠ ∅)) eqn:Hm.
  - destruct (for_each _ _ _ _) as [[X w2]|] eqn:Hfor; [|done].
    apply for_each_search_provider_inv in Hfor as (_ & Hsp & _). cbn [spawned] in Hsp.
    assert (Hsp' : spawned (if bool_decide (X ≠ ∅)
                            then {| files := files w2; spawned := spawned w2;
                                    journal := journal w2 ++
                                      [LogRecord INFO "detected dependencies: %s" [VSet X]] |}
                            else w2) = spawned w2)
      by (destruct (bool_decide (X ≠ ∅)); reflexivity).
    rewrite Hsp', Hsp, <- app_assoc. split; [done|].
    rewrite !length_app, length_fmap, Hlen. simpl. lia.
  - apply bool_decide_eq_false in Hm. apply dec_stable in Hm.
    assert (Hnil : set_iter (missing_in out) = []).
    { apply Permutation_nil_r. by rewrite Hiter, Hm, elements_empty. }
    cbn [spawned]. rewrite Hnil, Hm, size_empty. simpl. split; [done|].
    rewrite length_app. simpl. lia.
Qed.

(** X8: [search_shlibs_deps] changes the build dependencies only, and only
    by adding names that end in [:] and the architecture; it removes no
    build dependency, and the command lines and the log of the world it
    started in are kept, in their order, before what it adds. *)
Theorem search_shlibs_deps_frame :
  ∀ shell_run set_iter self w,
    match search_shlibs_deps shell_run set_iter self w with
    | Some (self', w') =>
        self' = set_build_deps self (build_deps self') ∧
        build_deps self ⊆ build_deps self' ∧
        (∀ x, x ∈ build_deps self' → x ∈ build_deps self ∨ ∃ p, x = p +:+ ":" +:+ arch self) ∧
        spawned w `prefix_of` spawned w' ∧ journal w `prefix_of` journal w'
    | None => True
    end.
Proof.
  intros shell_run set_iter self w.
  assert (Hadd : ∀ X w',
            spawned w `prefix_of` spawned w' → journal w `prefix_of` journal w' →
            let self' := set_build_deps self (build_deps self ∪ tagged self X) in
            self' = set_build_deps self (build_deps self') ∧
            build_deps self ⊆ build_deps self' ∧
            (∀ x, x ∈ build_deps self' →
                  x ∈ build_deps self ∨ ∃ p, x = p +:+ ":" +:+ arch self) ∧
            spawned w `prefix_of` spawned w' ∧ journal w `prefix_of` journal w').
  { intros X w' Hsp Hj. cbn. split_and!; [done|set_solver| |done..].
    intros x [Hx|Hx]%elem_of_union; [by left|]. right.
    unfold tagged in Hx. apply elem_of_map in Hx as (p & -> & _). by exists p. }
  destruct (decide (record_lib_dirs (wheel self) = [] ∨ cached self w ≠ [])) as [Hor|Hnot].
  - rewrite (search_shlibs_deps_cached_eq _ _ _ _ Hor). by apply Hadd.
  - assert (Hdirs : record_lib_dirs (wheel self) ≠ []) by (intros H; apply Hnot; by left).
    assert (Hcached : cached self w = []).
    { destruct (cached self w) eqn:Hc; [done|]. exfalso. apply Hnot. by right. }
    destruct (shell_run (dpkg_args self) (Some (root self)) (files w))
      as [[[out rc] fs]|] eqn:Hrun.
    + rewrite (search_shlibs_deps_analyzer_run _ _ _ _ _ _ _ Hdirs Hcached Hrun).
      destruct (bool_decide (missing_in out ≠ ∅)).
      * destruct (for_each _ _ _ _) as [[X w2]|] eqn:Hfor; [|done].
        apply for_each_search_provider_inv in Hfor as (_ & Hsp & logs & Hj).
        cbn [spawned journal] in Hsp, Hj.
        apply Hadd.
        -- destruct (bool_decide (X ≠ ∅)); cbn [spawned]; rewrite Hsp, <- app_assoc;
             by apply prefix_app_r.
        -- destruct (bool_decide (X ≠ ∅)); cbn [journal]; rewrite Hj, <- !app_assoc;
             by apply prefix_app_r.
      * apply Hadd; cbn; [by apply prefix_app_r | done].
    + by rewrite (search_shlibs_deps_analyzer_raises _ _ _ _ Hdirs Hcached Hrun).
Qed.

(** ** [select_provider]: the pick and the warnings *)

(** X9: the package picked for a library is one of the candidates, is not a
    debug package and no candidate that is not a debug package has a shorter
    name; no package is picked only when every candidate is a debug package;
    and the choice is logged unless exactly one candidate was left to choose
    from. *)
Theorem select_provider_pick :
  ∀ lib packages,
    match (select_provider lib packages).1 with
    | Some p =>
        p ∈ packages ∧ not_dbg p ∧
        ∀ q, q ∈ packages → not_dbg q → String.length p ≤ String.length q
    | None => ∀ q, q ∈ packages → ¬ not_dbg q
    end ∧
    ((select_provider lib packages).2 = [] ↔ length (filter not_dbg packages) = 1).
Proof.
  intros lib packages. split.
  - destruct (select_provider lib packages).1 as [p|] eqn:Hp.
    + by apply (select_provider_shortest lib).
    + intros q Hq Hdbg.
      destruct (select_provider_is_Some lib packages q Hq Hdbg) as [p' Hp'].
      congruence.
  - unfold select_provider. fold not_dbg.
    pose proof (Permutation_length (sorted_perm len_le (filter not_dbg packages))) as Hlen.
    destruct (filter not_dbg packages) as [|p1 [|p2 l]] eqn:Hf.
    + simpl. split; [discriminate|lia].
    + cbn [length Nat.eqb]. cbn [length] in Hlen.
      destruct (sorted len_le [p1]) as [|s1 [|s2 sl]]; try discriminate Hlen.
      simpl. split; done.
    + cbn [length Nat.eqb]. cbn [length] in Hlen.
      destruct (sorted len_le (p1 :: p2 :: l)) as [|s1 [|s2 sl]]; try discriminate Hlen.
      simpl. split; [discriminate|lia].
Qed.

(** ** [fix_shebangs] *)

Lemma split_nl_cons s : ∃ x l, split_nl s = x :: l.
Proof.
  induction s as [|a s (x & l & IH)]; cbn [split_nl]; [by eauto|].
  destruct (is_char LF a); [by eauto|]. rewrite IH. by eauto.
Qed.

Lemma is_char_LF_eq a : is_char LF a = true → a = LF.
Proof. unfold is_char. by intros ->%Ascii.eqb_eq. Qed.

(** Joining what [split] gave back gives the text back. *)
Lemma join_split_nl s : join NL (split_nl s) = s.
Proof.
  induction s as [|a s IH]; [done|]. cbn [split_nl].
  destruct (split_nl_cons s) as (x & l & Hs). rewrite Hs in IH |- *.
  destruct (is_char LF a) eqn:Ha.
  - apply is_char_LF_eq in Ha as ->.
    change (join NL ("" :: x :: l)) with ("" +:+ NL +:+ join NL (x :: l)).
    by rewrite IH.
  - destruct l as [|y l]; simpl in *; [by rewrite IH|].
    rewrite str_app_cons. by rewrite IH.
Qed.

Lemma join_tail_split_nl x s :
  join NL (x :: tail (split_nl s)) = x +:+ after_first_line s.
Proof.
  induction s as [|a s IH]; cbn [split_nl after_first_line tail]; [by rewrite str_app_nil_r|].
  destruct (split_nl_cons s) as (y & l & Hs).
  destruct (is_char LF a) eqn:Ha.
  - apply is_char_LF_eq in Ha as ->. cbn [tail].
    pose proof (join_split_nl s) as Hj. rewrite Hs in Hj |- *.
    change (join NL (x :: y :: l)) with (x +:+ NL +:+ join NL (y :: l)).
    by rewrite Hj.
  - rewrite Hs in IH |- *. exact IH.
Qed.

Lemma is_prefix_app p s : is_prefix p (p +:+ s) = true.
Proof.
  induction p as [|a p IH]; [by destruct s|].
  rewrite str_app_cons. simpl. by rewrite Ascii.eqb_refl.
Qed.

Lemma fixed_prefix shebang content : is_prefix shebang (fixed shebang content) = true.
Proof.
  unfold fixed. destruct (is_prefix shebang content) eqn:Hp; [done|]. apply is_prefix_app.
Qed.

Lemma fixed_fixed shebang content : fixed shebang (fixed shebang content) = fixed shebang content.
Proof. unfold fixed at 1. by rewrite fixed_prefix. Qed.

Lemma fix_shebang_eq self file w :
  fix_shebang self file w =
  match files w !! file with
  | Some content =>
      Some (tt, {| files := <[file := fixed (shebang_of self) content]> (files w);
                   spawned := spawned w; journal := journal w |})
  | None => None
  end.
Proof.
  unfold fix_shebang, mbind, M_bind, read_text.
  destruct (files w !! file) as [content|] eqn:Hfile; [|done].
  unfold fixed. destruct (is_prefix (shebang_of self) content) eqn:Hp; cbn [negb].
  - rewrite insert_id by done. by destruct w.
  - unfold write_text. do 3 f_equal.
    destruct (split_nl_cons content) as (x & l & Hs).
    rewrite <- join_tail_split_nl, Hs. reflexivity.
Qed.

(** The files after the scripts at [paths] were treated in turn. *)
Lemma for_each_fix_shebang self paths w :
  match for_each paths (λ file _, fix_shebang self file) tt w with
  | Some (_, w') =>
      spawned w' = spawned w ∧ journal w' = journal w ∧
      (∀ p, p ∈ paths → is_Some (files w !! p)) ∧
      ∀ p, files w' !! p =
           if decide (p ∈ paths) then fixed (shebang_of self) <$> files w !! p
           else files w !! p
  | None => ∃ p, p ∈ paths ∧ files w !! p = None
  end.
Proof.
  revert w. induction paths as [|file paths IH]; intros w.
  - cbn [for_each]. unfold mret, M_ret. split_and!; [done..| |].
    + by intros p ?%elem_of_nil.
    + intros p. rewrite decide_False; [done|]. apply not_elem_of_nil.
  - cbn [for_each]. unfold mbind, M_bind. rewrite fix_shebang_eq.
    destruct (files w !! file) as [content|] eqn:Hfile.
    + specialize (IH {| files := <[file:=fixed (shebang_of self) content]> (files w);
                        spawned := spawned w; journal := journal w |}).
      destruct (for_each paths _ tt _) as [[[] w']|].
      * destruct IH as (Hsp & Hj & Hex & Hfiles). cbn in Hsp, Hj, Hex, Hfiles.
        split_and!; [done..| |].
        -- intros p [->|Hp]%elem_of_cons; [by rewrite Hfile|].
           specialize (Hex p Hp). destruct (decide (p = file)) as [->|Hne].
           ++ by rewrite Hfile.
           ++ by rewrite lookup_insert_ne in Hex.
        -- intros p. rewrite Hfiles.
           destruct (decide (p = file)) as [->|Hne].
           ++ rewrite lookup_insert_eq, Hfile.
              rewrite (decide_True (P := file ∈ file :: paths)) by (by left).
              destruct (decide (file ∈ paths)); [|done]. cbn. by rewrite fixed_fixed.
           ++ rewrite lookup_insert_ne by done.
              destruct (decide (p ∈ paths)) as [Hin|Hnin].
              ** by rewrite (decide_True (P := p ∈ file :: paths)) by (by right).
              ** rewrite (decide_False (P := p ∈ file :: paths)); [done|].
                 by intros [?|?]%elem_of_cons.
      * destruct IH as (p & Hp & Hnone). cbn in Hnone.
        exists p. split; [by right|].
        destruct (decide (p = file)) as [->|Hne].
        -- by rewrite lookup_insert_eq in Hnone.
        -- by rewrite lookup_insert_ne in Hnone.
    + exists file. split; [by left | done].
Qed.

(** X10: what [fix_shebangs] does to one script that holds no carriage
    return, when it returns: a script that starts with the shebang is left
    as it is; any other is written anew as the shebang line followed by all
    it held from its first line feed on: its first line is replaced, a
    shebang or not, and every other line is kept.  No other file changes, no
    process is started and nothing is logged. *)
Theorem fix_shebang_keeps_other_lines :
  ∀ self file content w r w',
    files w !! file = Some content →
    unix_text content →
    fix_shebang self file w = Some (r, w') →
    (is_prefix (shebang_of self) content = true → files w' = files w) ∧
    (is_prefix (shebang_of self) content = false →
     files w' = <[file := shebang_of self +:+ after_first_line content]> (files w)) ∧
    (∀ p, p ≠ file → files w' !! p = files w !! p) ∧
    spawned w' = spawned w ∧ journal w' = journal w.
Proof.
  intros self file content w r w' Hfile _. rewrite fix_shebang_eq, Hfile.
  intros [= _ <-]. cbn [files spawned journal]. unfold fixed.
  split_and!; [| |by intros p ?; rewrite lookup_insert_ne|done..].
  - intros ->. by apply insert_id.
  - by intros ->.
Qed.

(** X11: when [fix_shebangs] returns, every script of the wheel starts
    with the shebang of the target interpreter; a script that already did
    holds what it held, and one that holds no carriage return holds the
    text described for a single script; every file that is not a script is
    as it was, no process was started and nothing was logged.  When a
    script of the wheel is not a file, [fix_shebangs] raises. *)
Theorem fix_shebangs_effect :
  ∀ self w,
    match fix_shebangs self w with
    | Some (_, w') =>
        spawned w' = spawned w ∧ journal w' = journal w ∧
        (∀ p, p ∈ script_paths self →
              ∃ content content',
                files w !! p = Some content ∧ files w' !! p = Some content' ∧
                is_prefix (shebang_of self) content' = true ∧
                (is_prefix (shebang_of self) content = true → content' = content) ∧
                (unix_text content → content' = fixed (shebang_of self) content)) ∧
        (∀ p, p ∉ script_paths self → files w' !! p = files w !! p)
    | None => True
    end ∧
    ((∃ p, p ∈ script_paths self ∧ files w !! p = None) → fix_shebangs self w = None).
Proof.
  intros self w. unfold fix_shebangs. fold (script_paths self).
  pose proof (for_each_fix_shebang self (script_paths self) w) as H.
  destruct (for_each _ _ tt w) as [[[] w']|]; [|done].
  destruct H as (Hsp & Hj & Hex & Hfiles). split.
  - split_and!; [done..| |].
    + intros p Hp. specialize (Hfiles p). rewrite decide_True in Hfiles by done.
      destruct (Hex p Hp) as [content Hfile]. rewrite Hfile in Hfiles. cbn in Hfiles.
      exists content, (fixed (shebang_of self) content).
      split_and!; [done..|apply fixed_prefix| |done].
      intros Hpre. unfold fixed. by rewrite Hpre.
    + intros p Hp. specialize (Hfiles p). by rewrite decide_False in Hfiles.
  - intros (p & Hp & Hnone). destruct (Hex p Hp) as [content Hfile]. congruence.
Qed.

(** X12: [fix_shebangs] is idempotent: run again on the files it left, it
    returns and changes nothing. *)
Theorem fix_shebangs_idempotent :
  ∀ self w w',
    fix_shebangs self w = Some (tt, w') →
    fix_shebangs self w' = Some (tt, w').
Proof.
  intros self w w'. unfold fix_shebangs. fold (script_paths self). intros Hrun.
  pose proof (for_each_fix_shebang self (script_paths self) w) as H.
  rewrite Hrun in H. destruct H as (_ & _ & Hex & Hfiles).
  pose proof (for_each_fix_shebang self (script_paths self) w') as H'.
  destruct (for_each _ _ tt w') as [[[] w'']|].
  - destruct H' as (Hsp & Hj & _ & Hfiles').
    do 2 f_equal. destruct w' as [fs' sp' j'], w'' as [fs'' sp'' j'']. cbn in *.
    subst sp'' j''. f_equal. apply map_eq. intros p.
    rewrite Hfiles'. destruct (decide (p ∈ script_paths self)) as [Hp|]; [|done].
    specialize (Hfiles p). rewrite decide_True in Hfiles by done.
    rewrite Hfiles. destruct (files w !! p); [|done]. cbn. by rewrite fixed_fixed.
  - destruct H' as (p & Hp & Hnone). exfalso.
    specialize (Hfiles p). rewrite decide_True in Hfiles by done.
    destruct (Hex p Hp) as [content Hfile]. rewrite Hfile in Hfiles.
    by rewrite Hnone in Hfiles.
Qed.

(** ** [copyright] *)

Lemma contains_dist_info_nonempty file :
  contains "dist-info" file = true → truthy (Some file) = true.
Proof. destruct file; [by vm_compute|done]. Qed.

Lemma pick_license_fold licenses :
  foldl (λ acc file, if contains "dist-info" file then Some file else acc) None licenses
  = last (dist_info_licenses licenses).
Proof.
  unfold dist_info_licenses.
  induction licenses as [|file licenses IH] using rev_ind; [done|].
  rewrite foldl_app, filter_app, IH. cbn [foldl].
  destruct (contains "dist-info" file) eqn:Hc.
  - rewrite filter_cons_True by done. by rewrite filter_nil, last_snoc.
  - rewrite filter_cons_False by (by rewrite Hc). by rewrite filter_nil, app_nil_r.
Qed.

Lemma pick_license_file_eq licenses :
  pick_license_file licenses =
  match last (dist_info_licenses licenses) with
  | Some file => file
  | None => default "" (head licenses)
  end.
Proof.
  unfold pick_license_file. cbv zeta. rewrite pick_license_fold.
  destruct (last (dist_info_licenses licenses)) as [file|] eqn:Hlast; [|done].
  assert (Hin : file ∈ dist_info_licenses licenses).
  { apply last_Some in Hlast as [l ->]. apply elem_of_app. right. by left. }
  apply list_elem_of_filter in Hin as [Hc _].
  by rewrite (contains_dist_info_nonempty _ Hc).
Qed.

Lemma pick_license_file_elem licenses :
  licenses ≠ [] → pick_license_file licenses ∈ licenses.
Proof.
  intros Hne. rewrite pick_license_file_eq.
  destruct (last (dist_info_licenses licenses)) as [file|] eqn:Hlast.
  - assert (Hin : file ∈ dist_info_licenses licenses).
    { apply last_Some in Hlast as [l ->]. apply elem_of_app. right. by left. }
    by apply list_elem_of_filter in Hin as [_ ?].
  - destruct licenses as [|lic l]; [done|]. by left.
Qed.

(** X13: the license shown in [debian/copyright] is one of the licenses of
    the wheel: the last one whose name holds [dist-info], and the first
    license when no name does. *)
Theorem pick_license_file_last_dist_info :
  ∀ licenses,
    licenses ≠ [] →
    pick_license_file licenses ∈ licenses ∧
    match last (dist_info_licenses licenses) with
    | Some file => pick_license_file licenses = file
    | None => head licenses = Some (pick_license_file licenses)
    end.
Proof.
  intros licenses Hne. split; [by apply pick_license_file_elem|].
  rewrite pick_license_file_eq.
  destruct (last (dist_info_licenses licenses)); [done|].
  by destruct licenses.
Qed.

Lemma read_licenses self (licenses : list string) acc w :
  for_each licenses
    (λ lic acc, content ← read_text (license_path self lic); mret (acc ++ [content])) acc w =
  match mapM (λ lic, files w !! license_path self lic) licenses with
  | Some contents => Some (acc ++ contents, w)
  | None => None
  end.
Proof.
  revert acc. induction licenses as [|lic licenses IH]; intros acc.
  - cbn. by rewrite app_nil_r.
  - cbn [for_each mapM]. unfold mbind at 1, M_bind at 1, mbind at 1, M_bind at 1, read_text.
    destruct (files w !! license_path self lic) as [content|]; [|done].
    cbn. unfold mret at 1, M_ret at 1. rewrite IH.
    destruct (mapM _ licenses) as [contents|]; [|done].
    cbn. by rewrite <- app_assoc.
Qed.

Lemma readlines_go_nil cur s : readlines_go cur s = [] → cur = "" ∧ s = "".
Proof.
  revert cur. induction s as [|a s IH]; intros cur; cbn [readlines_go].
  - by destruct cur.
  - destruct (is_char LF a); [done|]. by intros [? _]%IH.
Qed.

Lemma license_content_length acc (lines : list string) :
  String.length acc + length lines
  ≤ String.length (foldl (λ acc line, acc +:+ " " +:+ line) acc lines).
Proof.
  revert acc. induction lines as [|line lines IH]; intros acc; cbn [foldl length]; [lia|].
  specialize (IH (acc +:+ " " +:+ line)). rewrite !str_length_app in IH.
  cbn [String.length] in IH. lia.
Qed.

(** What [copyright] does once the wheel is known to have a license. *)
Lemma copyright_run set_iter render self w :
  record_licenses (wheel self) ≠ [] →
  match copyright set_iter render self w with
  | Some (r, w') =>
      ∃ contents text,
        mapM (λ lic, files w !! license_path self lic) (record_licenses (wheel self))
          = Some contents ∧
        files w !! license_path self (pick_license_file (record_licenses (wheel self)))
          = Some text ∧
        r = Some (gather_copyrights set_iter contents) ∧
        spawned w' = spawned w ∧
        (if decide (text = "") then
           files w' = files w ∧
           journal w' = journal w
             ++ [LogRecord DEBUG "found the following copyrights: %s"
                   [VList (gather_copyrights set_iter contents)];
                 LogRecord WARNING "license not found !" []]
         else
           (∃ kwargs, files w' = <[copyright_path self := render "copyright.j2" self kwargs]>
                                   (files w)) ∧
           journal w' = journal w
             ++ [LogRecord DEBUG "found the following copyrights: %s"
                   [VList (gather_copyrights set_iter contents)]])
  | None =>
      mapM (λ lic, files w !! license_path self lic) (record_licenses (wheel self)) = None
  end.
Proof.
  intros Hne. unfold copyright. cbv zeta.
  destruct (record_licenses (wheel self)) as [|lic0 lics] eqn:Hlics; [done|].
  fold (license_path self). unfold mbind at 1, M_bind at 1.
  pose proof (read_licenses self (lic0 :: lics) [] w) as Hread.
  unfold license_path in Hread at 1. unfold license_path at 1.
  rewrite Hread. clear Hread.
  destruct (mapM _ (lic0 :: lics)) as [contents|] eqn:Hall; [|done].
  cbn [app]. unfold mbind, M_bind, log, read_text, dump_tpl, write_text, mret, M_ret.
  cbn [files spawned journal].
  assert (Hpick : is_Some (files w !! license_path self (pick_license_file (lic0 :: lics)))).
  { pose proof (pick_license_file_elem (lic0 :: lics)) as Hin.
    apply mapM_Some_1 in Hall.
    apply list_elem_of_lookup in Hin as [i Hi]; [|done].
    destruct (Forall2_lookup_l _ _ _ _ _ Hall Hi) as (text & _ & Htext). by exists text. }
  destruct Hpick as [text Htext]. unfold license_path in Htext at 1. rewrite Htext.
  destruct (foldl _ "" (readlines text)) as [|a content] eqn:Hcontent.
  - exists contents, text. split; [done|]. split; [done|].
    destruct (readlines text) eqn:Hlines.
    + apply readlines_go_nil in Hlines as [_ ->]. rewrite decide_True by done.
      cbn. rewrite <- app_assoc. by split_and!.
    + exfalso. pose proof (license_content_length "" (readlines text)) as Hlen.
      rewrite Hlines, Hcontent in Hlen. cbn in Hlen. lia.
  - exists contents, text. split; [done|]. split; [done|].
    destruct (decide (text = "")) as [->|Htextne]; [by vm_compute in Hcontent|].
    cbn. split_and!; [done..| |done]. by eexists.
Qed.

(** X14: when [copyright] returns, it has started no process and written
    no file but [debian/copyright]; every license of the wheel was a file;
    for a wheel without license it has logged [no license found !] and
    changed no file; when the license it shows is empty it has changed no
    file either.  When a license of the wheel is not a file, [copyright]
    raises. *)
Theorem copyright_effect :
  ∀ set_iter render self w,
    match copyright set_iter render self w with
    | Some (r, w') =>
        spawned w' = spawned w ∧
        journal w `prefix_of` journal w' ∧
        (∀ p, p ≠ copyright_path self → files w' !! p = files w !! p) ∧
        (∀ lic, lic ∈ record_licenses (wheel self) →
                is_Some (files w !! license_path self lic)) ∧
        (is_Some (files w' !! copyright_path self) ∨ files w' = files w) ∧
        (record_licenses (wheel self) = [] →
         r = None ∧ files w' = files w ∧
         journal w' = journal w ++ [LogRecord WARNING "no license found !" []]) ∧
        (files w !! license_path self (pick_license_file (record_licenses (wheel self)))
           = Some "" → files w' = files w)
    | None => True
    end ∧
    ((∃ lic, lic ∈ record_licenses (wheel self) ∧ files w !! license_path self lic = None) →
     copyright set_iter render self w = None).
Proof.
  intros set_iter render self w.
  destruct (decide (record_licenses (wheel self) = [])) as [Hnil|Hne].
  - split.
    + unfold copyright. cbv zeta. rewrite Hnil. cbn.
      split_and!; [done|by apply prefix_app_r|done|by intros lic ?%elem_of_nil|by right
                  |done|done].
    + intros (lic & Hin & _). rewrite Hnil in Hin. by apply elem_of_nil in Hin.
  - pose proof (copyright_run set_iter render self w Hne) as Hrun.
    destruct (copyright set_iter render self w) as [[r w']|].
    + destruct Hrun as (contents & text & Hall & Htext & -> & Hsp & Hcase).
      assert (Hreadable : ∀ lic, lic ∈ record_licenses (wheel self) →
                                 is_Some (files w !! license_path self lic)).
      { intros lic Hin. apply mapM_Some_1 in Hall.
        apply list_elem_of_lookup in Hin as [i Hi].
        destruct (Forall2_lookup_l _ _ _ _ _ Hall Hi) as (t & _ & Ht). by exists t. }
      split.
      * destruct (decide (text = "")) as [->|Htextne].
        -- destruct Hcase as [Hf Hj]. rewrite Hf, Hj.
           split_and!; [done|by apply prefix_app_r|done|done|by right|done|done].
        -- destruct Hcase as [[kwargs Hf] Hj]. rewrite Hf, Hj.
           split_and!; [done|by apply prefix_app_r| |done| |done|].
           ++ intros p Hp. by rewrite lookup_insert_ne.
           ++ left. by rewrite lookup_insert_eq.
           ++ intros Hempty. rewrite Htext in Hempty. by injection Hempty.
      * intros (lic & Hin & Hnone). destruct (Hreadable lic Hin) as [t Ht]. congruence.
    + done.
Qed.

(** ** [create] *)

Lemma keeps_bind {A B} p (m : M A) (f : A → M B) :
  keeps p m → (∀ x, keeps p (f x)) → keeps p (m ≫= f).
Proof.
  intros Hm Hf w r w'. unfold mbind, M_bind.
  destruct (m w) as [[x w1]|] eqn:Hrun; [|done].
  intros Hrun'. rewrite (Hf _ _ _ _ Hrun'). by eapply Hm.
Qed.

Lemma leaves_bind_l {A B} p P (m : M A) (f : A → M B) :
  leaves p P m → (∀ x, keeps p (f x)) → leaves p P (m ≫= f).
Proof.
  intros Hm Hf w r w'. unfold mbind, M_bind.
  destruct (m w) as [[x w1]|] eqn:Hrun; [|done].
  intros Hrun'. rewrite (Hf _ _ _ _ Hrun'). by eapply Hm.
Qed.

Lemma leaves_bind_r {A B} p P (m : M A) (f : A → M B) :
  (∀ x, leaves p P (f x)) → leaves p P (m ≫= f).
Proof.
  intros Hf w r w'. unfold mbind, M_bind.
  destruct (m w) as [[x w1]|] eqn:Hrun; [|done]. apply Hf.
Qed.

Lemma keeps_ret {A} p (x : A) : keeps p (mret x).
Proof. intros w r w'. unfold mret, M_ret. by intros [= _ <-]. Qed.

Lemma keeps_for_each {A S} p (l : list A) (body : A → S → M S) s :
  (∀ a s, keeps p (body a s)) → keeps p (for_each l body s).
Proof.
  intros Hbody. revert s. induction l as [|a l IH]; intros s; cbn [for_each].
  - apply keeps_ret.
  - apply keeps_bind; [apply Hbody | apply IH].
Qed.

Lemma keeps_write_text p q txt : p ≠ q → keeps p (write_text q txt).
Proof.
  intros Hne w r w'. unfold write_text. intros [= _ <-]. cbn. by rewrite lookup_insert_ne.
Qed.

Lemma leaves_write_text p (P : option string → Prop) txt :
  P (Some txt) → leaves p P (write_text p txt).
Proof.
  intros HP w r w'. unfold write_text. intros [= _ <-]. cbn. by rewrite lookup_insert_eq.
Qed.


Lemma str_app_inv_head (p s t : string) : p +:+ s = p +:+ t → s = t.
Proof.
  induction p as [|a p IH]; [done|]. rewrite !str_app_cons. by intros [= ?%IH].
Qed.

Lemma join_snoc_inj sep (l : list string) a b :
  join sep (l ++ [a]) = join sep (l ++ [b]) → a = b.
Proof.
  induction l as [|x l IH]; [done|].
  assert (Hjoin : ∀ c, join sep ((x :: l) ++ [c]) = x +:+ sep +:+ join sep (l ++ [c])).
  { intros c. by destruct l. }
  rewrite !Hjoin. by intros ?%str_app_inv_head%str_app_inv_head%IH.
Qed.

Lemma path_join_plain d a :
  plain_name a → path_join d a = path_root d +:+ join "/" (path_parts d ++ [a]).
Proof.
  intros [Hrel Hparts]. unfold path_join, path_str. rewrite Hrel, Hparts.
  destruct (path_root d); [|done]. by destruct (path_parts d).
Qed.

Lemma path_join_inj d a b :
  plain_name a → plain_name b → path_join d a = path_join d b → a = b.
Proof.
  intros Ha Hb. rewrite !path_join_plain by done.
  by intros ?%str_app_inv_head%join_snoc_inj.
Qed.

Lemma debian_file_ne self a b :
  plain_name a → plain_name b → a ≠ b → debian_file self a ≠ debian_file self b.
Proof. intros Ha Hb Hne Heq. by apply Hne, (path_join_inj (debian self)). Qed.

(** Solves [debian_file self a ≠ debian_file self b] for two names. *)
Ltac debian_files_differ :=
  apply debian_file_ne; [split; vm_compute; reflexivity..|discriminate].

Lemma keeps_copyright set_iter render self p :
  p ≠ debian_file self "copyright" → keeps p (copyright set_iter render self).
Proof.
  intros Hne w r w' Hrun.
  destruct (decide (record_licenses (wheel self) = [])) as [Hnil|Hlic].
  - unfold copyright in Hrun. cbv zeta in Hrun. rewrite Hnil in Hrun. cbn in Hrun.
    by injection Hrun as _ <-.
  - pose proof (copyright_run set_iter render self w Hlic) as H. rewrite Hrun in H.
    destruct H as (contents & text & _ & _ & _ & _ & Hcase).
    destruct (decide (text = "")).
    + destruct Hcase as [-> _]. done.
    + destruct Hcase as [[kwargs ->] _]. by rewrite lookup_insert_ne.
Qed.

Lemma keeps_install set_iter listdir path_exists entrypoints ignore_entry_points
    run_install_scripts self p :
  p ≠ debian_file self "install" →
  keeps p (run_install_scripts (wheel self) (ctx self) (root self)) →
  keeps p (install set_iter listdir path_exists entrypoints ignore_entry_points
             run_install_scripts self).
Proof.
  intros Hne Hscripts. unfold install.
  apply keeps_bind.
  { intros w r w'. unfold os_listdir. destruct (listdir _ _); [|done]. by intros [= _ <-]. }
  intros dirs. apply keeps_bind.
  { apply keeps_for_each. intros d X. destruct (negb _); [apply keeps_ret|].
    apply keeps_bind.
    - intros w r w'. unfold exists_. by intros [= _ <-].
    - intros []; apply keeps_ret. }
  intros X. apply keeps_bind.
  { destruct (_ && _); [|apply keeps_ret].
    apply keeps_bind; [done|]. intros _. apply keeps_ret. }
  intros X'. by apply keeps_write_text.
Qed.

Lemma search_shlibs_deps_descriptor shell_run set_iter self w self' w' :
  search_shlibs_deps shell_run set_iter self w = Some (self', w') →
  self' = set_build_deps self (build_deps self') ∧ build_deps self ⊆ build_deps self'.
Proof.
  intros Hrun.
  assert (Hadd : ∀ X, let self' := set_build_deps self (build_deps self ∪ tagged self X) in
                      self' = set_build_deps self (build_deps self') ∧
                      build_deps self ⊆ build_deps self').
  { intros X. cbn. split; [done|set_solver]. }
  destruct (decide (record_lib_dirs (wheel self) = [] ∨ cached self w ≠ [])) as [Hor|Hnot].
  - rewrite (search_shlibs_deps_cached_eq _ _ _ _ Hor) in Hrun.
    injection Hrun as <- _. apply Hadd.
  - assert (Hdirs : record_lib_dirs (wheel self) ≠ []) by (intros H; apply Hnot; by left).
    assert (Hcached : cached self w = []).
    { destruct (cached self w) eqn:Hc; [done|]. exfalso. apply Hnot. by right. }
    destruct (shell_run (dpkg_args self) (Some (root self)) (files w))
      as [[[out rc] fs]|] eqn:Hsh.
    + rewrite (search_shlibs_deps_analyzer_run _ _ _ _ _ _ _ Hdirs Hcached Hsh) in Hrun.
      destruct (bool_decide (missing_in out ≠ ∅)).
      * destruct (for_each _ _ _ _) as [[X w2]|]; [|done].
        injection Hrun as <- _. apply Hadd.
      * injection Hrun as <- _. apply Hadd.
    + by rewrite (search_shlibs_deps_analyzer_raises _ _ _ _ Hdirs Hcached Hsh) in Hrun.
Qed.

(** X15: [create] writes [debian/control] twice, and the one it leaves is
    the second: the template rendered for the descriptor as the search of
    the shared libraries returned it, which is the descriptor [create] was
    given but for its build dependencies, none of which was removed. *)
Theorem create_control_after_search :
  ∀ shell_run set_iter render listdir path_exists entrypoints ignore_entry_points
    run_install_scripts self w,
    match create shell_run set_iter render listdir path_exists entrypoints
            ignore_entry_points run_install_scripts self w with
    | Some (self', w') =>
        files w' !! debian_file self "control" = Some (render "control.j2" self' []) ∧
        self' = set_build_deps self (build_deps self') ∧
        build_deps self ⊆ build_deps self' ∧
        ∃ w1 w2,
          create_files set_iter render listdir path_exists entrypoints
            ignore_entry_points run_install_scripts self w = Some (tt, w1) ∧
          search_shlibs_deps shell_run set_iter self w1 = Some (self', w2) ∧
          files w' = <[debian_file self "control" := render "control.j2" self' []]> (files w2)
    | None => True
    end.
Proof.
  intros shell_run set_iter render listdir path_exists entrypoints ignore_entry_points
    run_install_scripts self w.
  unfold create. unfold mbind at 1, M_bind at 1.
  destruct (create_files _ _ _ _ _ _ _ self w) as [[[] w1]|]; [|done].
  unfold mbind at 1, M_bind at 1.
  destruct (search_shlibs_deps shell_run set_iter self w1) as [[self' w2]|] eqn:Hsearch; [|done].
  destruct (search_shlibs_deps_descriptor _ _ _ _ _ _ Hsearch) as [Hself Hsub].
  assert (Hdeb : debian self' = debian self) by (by rewrite Hself).
  unfold control, dump_tpl, write_text, mbind, M_bind, mret, M_ret, debian_file.
  cbn [files]. rewrite Hdeb.
  split_and!; [by rewrite lookup_insert_eq|done|done|]. by exists w1, w2.
Qed.

(** Solves [keeps p m] for the steps of [create_files] that come after the
    one that writes [p]. *)
Ltac keeps_debian_file Hkeep :=
  repeat first
    [ apply keeps_ret
    | apply keeps_write_text; debian_files_differ
    | apply keeps_copyright; debian_files_differ
    | apply keeps_install; [debian_files_differ | apply Hkeep; split; vm_compute; reflexivity]
    | apply keeps_bind; [|intros ?] ].

(** X16: when [create] comes to the search of the shared libraries, the
    [debian] directory holds [control], rendered for the descriptor as it
    was given, [compat] with the text 9, [changelog], [rules], rendered with
    one [-l] parameter for each library directory of the wheel, [postinst]
    and [prerm], each rendered from its template, and a file [install];
    provided the installation of the entry points, which is not of this
    module, keeps the files that are in that directory. *)
Theorem create_files_debian_directory :
  ∀ set_iter render listdir path_exists entrypoints ignore_entry_points
    run_install_scripts self w w1,
    (∀ file, plain_name file →
             keeps (debian_file self file)
               (run_install_scripts (wheel self) (ctx self) (root self))) →
    create_files set_iter render listdir path_exists entrypoints ignore_entry_points
      run_install_scripts self w = Some (tt, w1) →
    files w1 !! debian_file self "control" = Some (render "control.j2" self []) ∧
    files w1 !! debian_file self "compat" = Some "9" ∧
    files w1 !! debian_file self "changelog" = Some (render "changelog.j2" self []) ∧
    is_Some (files w1 !! debian_file self "install") ∧
    files w1 !! debian_file self "rules"
      = Some (render "rules.j2" self [("shlibdeps_params", VStr (shlibdeps_params self))]) ∧
    files w1 !! debian_file self "postinst" = Some (render "postinst.j2" self []) ∧
    files w1 !! debian_file self "prerm" = Some (render "prerm.j2" self []).
Proof.
  intros set_iter render listdir path_exists entrypoints ignore_entry_points
    run_install_scripts self w w1 Hkeep Hrun.
  unfold create_files, control, compat, changelog, rules, postinst, prerm, dump_tpl in Hrun.
  split_and!.
  - revert Hrun. apply (leaves_bind_r _ (λ o, o = Some _)). intros present.
    do 2 (apply leaves_bind_r; intros _).
    apply leaves_bind_l; [by apply leaves_write_text|]. intros _.
    keeps_debian_file Hkeep.
  - revert Hrun. apply (leaves_bind_r _ (λ o, o = Some _)). intros present.
    do 3 (apply leaves_bind_r; intros _).
    apply leaves_bind_l; [by apply leaves_write_text|]. intros _.
    keeps_debian_file Hkeep.
  - revert Hrun. apply (leaves_bind_r _ (λ o, o = Some _)). intros present.
    do 4 (apply leaves_bind_r; intros _).
    apply leaves_bind_l; [by apply leaves_write_text|]. intros _.
    keeps_debian_file Hkeep.
  - revert Hrun. apply (leaves_bind_r _ is_Some). intros present.
    do 5 (apply leaves_bind_r; intros _).
    apply leaves_bind_l; [|intros _; keeps_debian_file Hkeep].
    unfold install. do 3 (apply leaves_bind_r; intros ?).
    by apply leaves_write_text.
  - revert Hrun. apply (leaves_bind_r _ (λ o, o = Some _)). intros present.
    do 6 (apply leaves_bind_r; intros _).
    apply leaves_bind_l; [by apply leaves_write_text|]. intros _.
    keeps_debian_file Hkeep.
  - revert Hrun. apply (leaves_bind_r _ (λ o, o = Some _)). intros present.
    do 8 (apply leaves_bind_r; intros _).
    apply leaves_bind_l; [by apply leaves_write_text|]. intros _.
    keeps_debian_file Hkeep.
  - revert Hrun. apply (leaves_bind_r _ (λ o, o = Some _)). intros present.
    do 9 (apply leaves_bind_r; intros _).
    by apply leaves_write_text.
Qed.

(** ** Reading back [debian/substvars] *)

Lemma chr_head p a s : p a = true → matches (Chr p) (String a s) = [Hit (String a "") None s].
Proof. intros H. cbn [matches]. by rewrite H. Qed.

Lemma chr_fails p s : starts_with p s = false → matches (Chr p) s = [].
Proof. destruct s as [|a s]; [done|]. cbn [starts_with matches]. by intros ->. Qed.

Lemma star_chr_head p pre s fuel :
  all_chars p pre = true → starts_with p s = false → String.length pre ≤ fuel →
  ∃ l, star_go (matches (Chr p)) fuel (pre +:+ s) = Hit pre None s :: l.
Proof.
  revert fuel. induction pre as [|a pre IH]; intros fuel Hall Hs Hfuel.
  - change ("" +:+ s) with s. destruct fuel as [|fuel]; [by exists []|].
    cbn [star_go]. rewrite (chr_fails _ _ Hs). by exists [].
  - cbn [all_chars] in Hall. apply andb_true_iff in Hall as [Ha Hall].
    destruct fuel as [|fuel]; [cbn in Hfuel; lia|].
    destruct (IH fuel Hall Hs) as [l Hl]; [cbn in Hfuel; lia|].
    rewrite str_app_cons. cbn [star_go]. rewrite (chr_head _ _ _ Ha), bind_cons.
    cbn [taken rest]. rewrite Hl, bind_cons.
    eexists. reflexivity.
Qed.

Lemma plus_chr_head p pre s :
  pre ≠ "" → all_chars p pre = true → starts_with p s = false →
  ∃ l, matches (Plus (Chr p)) (pre +:+ s) = Hit pre None s :: l.
Proof.
  intros Hne Hall Hs. destruct pre as [|a pre]; [done|].
  cbn [all_chars] in Hall. apply andb_true_iff in Hall as [Ha Hall].
  unfold Plus. rewrite matches_Seq, str_app_cons, (chr_head _ _ _ Ha), bind_cons.
  cbn [rest]. rewrite matches_Star.
  destruct (star_chr_head p pre s (String.length (pre +:+ s)) Hall Hs) as [l Hl].
  { rewrite str_length_app. lia. }
  rewrite Hl, bind_cons. eexists. reflexivity.
Qed.

Lemma seq_head r1 r2 s h1 l1 h2 l2 :
  matches r1 s = h1 :: l1 → matches r2 (rest h1) = h2 :: l2 →
  ∃ l, matches (Seq r1 r2) s = hit_then h1 h2 :: l.
Proof.
  intros H1 H2. rewrite matches_Seq, H1, bind_cons, H2, bind_cons. eexists. reflexivity.
Qed.

Lemma group_head r s h l :
  matches r s = h :: l →
  ∃ l', matches (Group r) s = Hit (taken h) (Some (taken h)) (rest h) :: l'.
Proof. intros H. rewrite matches_Group, H, bind_cons. eexists. reflexivity. Qed.

Lemma opt_head r s h l : matches r s = h :: l → ∃ l', matches (Opt r) s = h :: l'.
Proof. intros H. unfold Opt. cbn [matches]. rewrite H. eexists. reflexivity. Qed.

Lemma opt_skip r s : matches r s = [] → matches (Opt r) s = [hit0 s].
Proof. intros H. unfold Opt. cbn [matches]. by rewrite H. Qed.

Lemma seq_fails r1 r2 s : matches r1 s = [] → matches (Seq r1 r2) s = [].
Proof. intros H. by rewrite matches_Seq, H. Qed.

Lemma group_fails r s : matches r s = [] → matches (Group r) s = [].
Proof. intros H. by rewrite matches_Group, H. Qed.

Lemma findall_skip r a s :
  matches r (String a s) = [] → findall r (String a s) = findall r s.
Proof.
  intros H. unfold findall. cbn [String.length].
  rewrite (findall_go_S r (S (String.length s))), (search_skip _ _ _ H).
  rewrite (findall_go_fuel r (S (String.length s)) (S (S (String.length s))) s) by lia.
  by rewrite (findall_go_S r (S (String.length s))).
Qed.

Lemma substvars_hit_findall s h l :
  matches SUBSTVARS_RE s = h :: l → taken h ≠ "" →
  findall SUBSTVARS_RE s = default "" (group1 h) :: findall SUBSTVARS_RE (rest h).
Proof. intros H Ht. apply findall_step; [by eapply search_here | done]. Qed.

(** The match of the pattern at a dependency, followed by [s]. *)
Lemma substvars_dependency d s :
  well_formed d →
  s = "" ∨ s = NL ∨ (∃ s', s = ", " +:+ s') →
  findall SUBSTVARS_RE (dependency d +:+ s) = d.1 :: findall SUBSTVARS_RE s.
Proof.
  destruct d as [name [constraint|]]; unfold well_formed, dependency; cbn [fst snd].
  - intros (Hne & Hname & Hcne & Hc) _.
    rewrite !str_app_assoc.
    destruct (plus_chr_head is_name_char name (" (" +:+ constraint +:+ ")" +:+ s) Hne Hname)
      as [l1 H1]; [done|].
    apply group_head in H1 as [l1' H1].
    assert (Hsp : ∃ l, matches (Opt (Chr is_space)) (" (" +:+ constraint +:+ ")" +:+ s)
                       = Hit " " None ("(" +:+ constraint +:+ ")" +:+ s) :: l).
    { eapply opt_head. by apply chr_head. }
    destruct Hsp as [l2 H2].
    destruct (plus_chr_head not_closing constraint (")" +:+ s) Hcne Hc) as [l3 H3]; [done|].
    assert (Hpar : ∃ l h, matches (Opt (cat [lit "("; Plus (Chr not_closing); lit ")"]))
                            ("(" +:+ constraint +:+ ")" +:+ s) = h :: l ∧
                          rest h = s ∧ group1 h = None).
    { destruct (seq_head (Plus (Chr not_closing)) (lit ")") _ _ _
                  (Hit ")" None s) [] H3) as [l4 H4]; [by apply chr_head|].
      destruct (seq_head (lit "(") (Seq (Plus (Chr not_closing)) (lit ")"))
                  ("(" +:+ constraint +:+ ")" +:+ s)
                  (Hit "(" None (constraint +:+ ")" +:+ s)) [] _ _ ltac:(by apply chr_head) H4)
        as [l5 H5].
      apply opt_head in H5 as [l6 H6]. by eexists _, _. }
    destruct Hpar as (l7 & hp & H7 & Hrest & Hgroup).
    destruct (seq_head (Opt (Chr is_space)) _ _ _ _ _ _ H2 H7) as [l8 H8].
    destruct (seq_head _ _ _ _ _ _ _ H1 H8) as [l9 H9].
    change (Seq _ _) with SUBSTVARS_RE in H9.
    rewrite (substvars_hit_findall _ _ _ H9).
    + cbn [hit_then group1 rest]. rewrite Hgroup, Hrest. done.
    + cbn [hit_then taken]. destruct name; [done|]. by rewrite str_app_cons.
  - intros (Hne & Hname & _) Hs.
    assert (Hnext : starts_with is_name_char s = false).
    { destruct Hs as [->|[->|[s' ->]]]; done. }
    destruct (plus_chr_head is_name_char name s Hne Hname Hnext) as [l1 H1].
    apply group_head in H1 as [l1' H1].
    assert (Hafter : ∃ l h, matches (Seq (Opt (Chr is_space))
                                      (Opt (cat [lit "("; Plus (Chr not_closing); lit ")"]))) s
                            = h :: l ∧ group1 h = None ∧
                            findall SUBSTVARS_RE (rest h) = findall SUBSTVARS_RE s).
    { destruct Hs as [->|[->|[s' ->]]].
      - eexists _, _. split; [vm_compute; reflexivity|]. done.
      - eexists _, _. split; [vm_compute; reflexivity|]. split; [done|].
        vm_compute. reflexivity.
      - assert (H2 : matches (Opt (Chr is_space)) (", " +:+ s') = [hit0 (", " +:+ s')]).
        { apply opt_skip. by apply chr_fails. }
        assert (H3 : matches (Opt (cat [lit "("; Plus (Chr not_closing); lit ")"]))
                       (", " +:+ s') = [hit0 (", " +:+ s')]).
        { apply opt_skip. apply seq_fails. by apply chr_fails. }
        destruct (seq_head _ _ _ _ _ _ _ H2 H3) as [l H]. by eexists _, _. }
    destruct Hafter as (l2 & h2 & H2 & Hgroup & Hfind).
    destruct (seq_head _ _ _ _ _ _ _ H1 H2) as [l3 H3].
    change (Seq _ _) with SUBSTVARS_RE in H3.
    rewrite (substvars_hit_findall _ _ _ H3).
    + cbn [hit_then group1 rest]. rewrite Hgroup, Hfind. done.
    + cbn [hit_then taken]. destruct name; [done|]. by rewrite str_app_cons.
Qed.

Lemma substvars_separator s : findall SUBSTVARS_RE (", " +:+ s) = findall SUBSTVARS_RE s.
Proof.
  change (", " +:+ s) with (String "," (String " " s)).
  rewrite findall_skip; [|by apply seq_fails, group_fails, seq_fails, chr_fails].
  rewrite findall_skip; [done|by apply seq_fails, group_fails, seq_fails, chr_fails].
Qed.

Lemma substvars_dependencies deps tail :
  Forall well_formed deps → tail = "" ∨ tail = NL →
  findall SUBSTVARS_RE (join ", " (dependency <$> deps) +:+ tail) = deps.*1.
Proof.
  intros Hdeps Htail. induction Hdeps as [|d deps Hd Hdeps IH].
  - by destruct Htail as [->| ->]; vm_compute.
  - destruct deps as [|d' deps].
    + cbn [fmap list_fmap join]. rewrite substvars_dependency; [|done|tauto].
      cbn. f_equal. by destruct Htail as [->| ->]; vm_compute.
    + change (join ", " (dependency <$> d :: d' :: deps))
        with (dependency d +:+ ", " +:+ join ", " (dependency <$> d' :: deps)).
      rewrite !str_app_assoc.
      rewrite substvars_dependency; [|done|]; last first.
      { right. right. eexists. reflexivity. }
      rewrite substvars_separator, IH. done.
Qed.

(** X17: [parse_substvars] reads back what [dpkg-shlibdeps] wrote: from a
    [debian/substvars] that holds the line [shlibs:Depends=] followed by
    dependencies separated by a comma and a blank, each the name of a
    package with or without a constraint on its version between brackets,
    with or without a line feed at the end, it reads the names of the
    packages, each once for each time it is listed, in their order, and
    nothing of the constraints. *)
Theorem parse_substvars_reads_dependencies :
  ∀ deps tail,
    Forall well_formed deps →
    tail = "" ∨ tail = NL →
    parsed_substvars (substvars_line deps +:+ tail) = deps.*1.
Proof.
  intros deps tail Hdeps Htail. unfold parsed_substvars, substvars_line.
  rewrite str_app_assoc.
  change (drop_str 15 ("shlibs:Depends=" +:+ ?s)) with s.
  by apply substvars_dependencies.
Qed.

(** ** Witnesses of the further properties *)

Lemma search_shlibs_deps_without_lib_dirs_witness :
  search_shlibs_deps shell_raises elements tool_package tool_world
  = Some (tool_package, tool_world).
Proof.
  refine (proj2 (search_shlibs_deps_without_lib_dirs shell_raises elements
                   tool_package tool_world _) _).
  - vm_compute. reflexivity.
  - vm_compute. reflexivity.
Defined.

Lemma search_shlibs_deps_shell_failure_witness :
  search_shlibs_deps shell_raises elements sample_package empty_world = None.
Proof.
  apply search_shlibs_deps_shell_failure.
  - intros X. reflexivity.
  - vm_compute. discriminate.
  - vm_compute. reflexivity.
  - left. reflexivity.
Defined.

Lemma search_shlibs_deps_processes_witness :
  spawned <$> (snd <$> search_shlibs_deps (analyzer_says DIAGNOSTIC) elements
                         native_package tool_world)
  = Some [["dpkg-shlibdeps"; "-lsrc"; "-lsrc/tool/.libs"; "src/tool.so";
           "src/tool/.libs/libz.so.1"];
          ["apt-file"; "search"; "libfoo.so.1"]].
Proof.
  assert (H1 : ∀ X : gset string, elements X ≡ₚ elements X) by (intros X; reflexivity).
  assert (H2 : record_lib_dirs (wheel native_package) ≠ []) by (vm_compute; discriminate).
  assert (H3 : cached native_package tool_world = []) by (vm_compute; reflexivity).
  assert (H4 : analyzer_says DIAGNOSTIC (dpkg_args native_package)
                 (Some (root native_package)) (files tool_world)
               = Some (DIAGNOSTIC, 0%Z, files tool_world)) by (vm_compute; reflexivity).
  pose proof (search_shlibs_deps_processes (analyzer_says DIAGNOSTIC) elements
                native_package tool_world DIAGNOSTIC 0%Z (files tool_world)
                H1 H2 H3 H4) as H.
  destruct (search_shlibs_deps (analyzer_says DIAGNOSTIC) elements native_package tool_world)
    as [[self' w']|] eqn:Hrun.
  - destruct H as [H _].
    cbn [fmap option_fmap option_map snd]. rewrite H. vm_compute. reflexivity.
  - vm_compute in Hrun. discriminate Hrun.
Defined.

Lemma fix_shebang_keeps_other_lines_witness :
  files tool_world_fixed
  = <[TOOL_SCRIPT_PATH := shebang_of tool_package +:+ after_first_line TOOL_SCRIPT]>
      (files tool_world).
Proof.
  refine (proj1 (proj2 (fix_shebang_keeps_other_lines tool_package TOOL_SCRIPT_PATH
                          TOOL_SCRIPT tool_world tt tool_world_fixed _ _ _)) _).
  - vm_compute. reflexivity.
  - vm_compute. reflexivity.
  - vm_compute. reflexivity.
  - vm_compute. reflexivity.
Defined.

Lemma fix_shebangs_idempotent_witness :
  fix_shebangs tool_package tool_world_fixed = Some (tt, tool_world_fixed).
Proof.
  apply (fix_shebangs_idempotent tool_package tool_world tool_world_fixed).
  vm_compute. reflexivity.
Defined.

Lemma pick_license_file_last_dist_info_witness :
  pick_license_file TOOL_LICENSES ∈ TOOL_LICENSES.
Proof.
  refine (proj1 (pick_license_file_last_dist_info TOOL_LICENSES _)). discriminate.
Defined.

Lemma create_files_debian_directory_witness :
  ∃ w1,
    create_files elements sample_render sample_listdir (λ _ _, false) (λ _, true)
      (λ _, false) sample_install_scripts native_package tool_world = Some (tt, w1) ∧
    shlibdeps_params native_package = " -lsrc -lsrc/tool/.libs" ∧
    files w1 !! debian_file native_package "rules"
      = Some (sample_render "rules.j2" native_package
                [("shlibdeps_params", VStr (shlibdeps_params native_package))]) ∧
    files w1 !! debian_file native_package "compat" = Some "9".
Proof.
  destruct (create_files elements sample_render sample_listdir (λ _ _, false) (λ _, true)
              (λ _, false) sample_install_scripts native_package tool_world)
    as [[[] w1]|] eqn:Hrun; [|vm_compute in Hrun; discriminate Hrun].
  exists w1. split; [reflexivity|]. split; [vm_compute; reflexivity|].
  assert (Hkeep : ∀ file, plain_name file →
                          keeps (debian_file native_package file)
                            (sample_install_scripts (wheel native_package)
                               (ctx native_package) (root native_package))).
  { intros file Hplain. apply keeps_write_text.
    unfold debian_file. rewrite path_join_plain by done.
    vm_compute. discriminate. }
  pose proof (create_files_debian_directory elements sample_render sample_listdir
                (λ _ _, false) (λ _, true) (λ _, false) sample_install_scripts
                native_package tool_world w1 Hkeep Hrun) as H.
  split; [apply H|apply H].
Defined.

Lemma parse_substvars_reads_dependencies_witness :
  parsed_substvars (substvars_line CACHED_DEPENDENCIES +:+ NL) = CACHED_DEPENDENCIES.*1.
Proof.
  apply parse_substvars_reads_dependencies; [|by right].
  unfold CACHED_DEPENDENCIES.
  apply Forall_cons_2; [|apply Forall_cons_2; [|apply Forall_nil_2]];
    (split; [discriminate|split; [vm_compute; reflexivity|]]);
    (split; [discriminate|vm_compute; reflexivity]).
Defined.
